(** * Random restaurant finder: the selection pipeline of [pages/index.vue]

    A shallow embedding of the script part of the page component:
    the search-request builder, the relevance filter, the selection
    pipeline ([getRandomRestaurants]), the geolocation step
    ([getUserLocation]) and the marker reconciliation
    ([updateMapMarkers]), followed by the properties proved about them.

    Conventions of the model.
    - A JavaScript string is the list of its UTF-16 code units.
    - A JavaScript number that the code only compares and subtracts
      (a rating, a draw of [Math.random]) is an exact rational; [None]
      stands for [undefined] / [NaN].
    - An optional property of a provider record is an [option].
    - The reactive refs of the component are the fields of one record,
      [ViewState], threaded explicitly through every operation.
    - One run of an asynchronous function is one state transition: the
      refs are read as they are when the run starts. *)

From Stdlib Require Import List Bool Arith ZArith NArith QArith Lia.
From Stdlib Require Import Qround Lqa Sorted Permutation String Ascii.
Import ListNotations.

Set Implicit Arguments.

Local Open Scope list_scope.

(* ================================================================= *)
(** ** JavaScript strings *)

Module JsString.

(** A code unit of a UTF-16 string. *)
Definition unit := N.

Definition t := list unit.

Definition eqb (a b : t) : bool :=
  if list_eq_dec N.eq_dec a b then true else false.

(** A literal of the Basic Latin block. *)
Fixpoint lit (s : string) : t :=
  match s with
  | EmptyString => []
  | String c r => N_of_ascii c :: lit r
  end.

(** Truthiness of a string: every string but the empty one. *)
Definition truthy (s : t) : bool :=
  match s with [] => false | _ :: _ => true end.

(** [WhiteSpace] and [LineTerminator] code points, the ones that
    [String.prototype.trim] strips. *)
Definition isWhiteSpace (c : unit) : bool :=
  (  (9 <=? c) && (c <=? 13)
  || (c =? 32) || (c =? 160) || (c =? 5760)
  || (8192 <=? c) && (c <=? 8202)
  || (c =? 8232) || (c =? 8233) || (c =? 8239)
  || (c =? 8287) || (c =? 12288) || (c =? 65279))%N.

Fixpoint trimStart (s : t) : t :=
  match s with
  | [] => []
  | c :: r => if isWhiteSpace c then trimStart r else s
  end.

Definition trimEnd (s : t) : t := rev (trimStart (rev s)).

(** [s.trim()] *)
Definition trim (s : t) : t := trimEnd (trimStart s).

Fixpoint startsWith (s p : t) {struct p} : bool :=
  match p with
  | [] => true
  | a :: p' =>
      match s with
      | [] => false
      | b :: s' => (a =? b)%N && startsWith s' p'
      end
  end.

(** [s.includes(p)] *)
Fixpoint includes (s p : t) : bool :=
  startsWith s p
  || match s with
     | [] => false
     | _ :: s' => includes s' p
     end.

(** [p] occurs in [s] as a contiguous run of code units. *)
Definition substring_of (p s : t) : Prop :=
  exists a b, s = a ++ p ++ b.

End JsString.

Definition jsstring : Type := JsString.t.
Definition js : string -> jsstring := JsString.lit.

(* ================================================================= *)
(** ** Data model *)

(** [{ lat, lng }] *)
Record Coordinate : Type := mkCoordinate { lat : Q; lng : Q }.

(** The values of [business_status] the provider documents. *)
Inductive BusinessStatus : Type :=
| OPERATIONAL
| CLOSED_TEMPORARILY
| CLOSED_PERMANENTLY.

Definition BusinessStatus_eqb (a b : BusinessStatus) : bool :=
  match a, b with
  | OPERATIONAL, OPERATIONAL
  | CLOSED_TEMPORARILY, CLOSED_TEMPORARILY
  | CLOSED_PERMANENTLY, CLOSED_PERMANENTLY => true
  | _, _ => false
  end.

(** A record of a [nearbySearch] result.  Every property the code reads
    through [?.] or tests for presence is optional; [geometry] stands
    for [geometry.location]. *)
Record RawPlace : Type := mkRawPlace {
  place_id : jsstring;
  name : option jsstring;
  rating : option Q;
  business_status : option BusinessStatus;
  types : option (list jsstring);
  vicinity : option jsstring;
  geometry : option Coordinate
}.

(** What [getSearchRequests] pushes: a request still without
    [location] and [radius]. *)
Record RequestFragment : Type := mkFragment {
  keyword : option jsstring;
  type_ : jsstring;
  rankby : option jsstring
}.

(** [{ ...request, location, radius }] *)
Record SearchRequest : Type := mkRequest {
  fragment : RequestFragment;
  location : option Coordinate;
  radius : Z
}.

(** The literals of the source. *)
Module Lit.
(** U+706B U+934B, hot pot *)
Definition hotpot : jsstring := [0x706B; 0x934B]%N.
(** U+9910 U+5EF3, restaurant *)
Definition canting : jsstring := [0x9910; 0x5EF3]%N.
Definition space : jsstring := js " ".
Definition restaurant : jsstring := js "restaurant".
Definition rating : jsstring := js "rating".
End Lit.

(* ================================================================= *)
(** ** SearchRequestBuilder: [getSearchRequests] *)

Definition getSearchRequests (keyword : jsstring) : list RequestFragment :=
  let requests := [] in
  if JsString.truthy (JsString.trim keyword) then
    if JsString.includes keyword Lit.hotpot then
      requests ++ [ {| keyword := Some (Lit.hotpot ++ Lit.space ++ Lit.canting);
                       type_ := Lit.restaurant;
                       rankby := Some Lit.rating |} ]
    else
      requests ++ [ {| keyword := Some (JsString.trim keyword
                                          ++ Lit.space ++ Lit.canting);
                       type_ := Lit.restaurant;
                       rankby := Some Lit.rating |} ]
  else
    requests ++ [ {| keyword := None;
                     type_ := Lit.restaurant;
                     rankby := None |} ].

(* ================================================================= *)
(** ** PlaceFilter: [isRelevantRestaurant] *)

(** The values the filter can return: a boolean or [undefined]. *)
Definition jsbool : Type := option bool.

(** [ToBoolean] on such a value. *)
Definition ToBoolean (v : jsbool) : bool :=
  match v with Some true => true | _ => false end.

(** [a || b]: [a] when it is truthy, [b] otherwise. *)
Definition js_or (a b : jsbool) : jsbool :=
  if ToBoolean a then a else b.

(** [o?.f()]: [undefined] when [o] is absent. *)
Definition opt_call {A : Type} (o : option A) (f : A -> bool) : jsbool :=
  match o with
  | None => None
  | Some x => Some (f x)
  end.

Section PlaceFilter.

(** [String.prototype.toLowerCase], the engine's Unicode mapping. *)
Variable toLowerCase : jsstring -> jsstring.

Definition isRelevantRestaurant (place : RawPlace) (keyword : jsstring)
  : jsbool :=
  if negb (match business_status place with
           | Some s => BusinessStatus_eqb s OPERATIONAL
           | None => false
           end)
  then Some false
  else if negb (JsString.truthy keyword)
  then Some true
  else
    let lowerKeyword := toLowerCase keyword in
    js_or
      (js_or
         (opt_call (name place)
            (fun n => JsString.includes (toLowerCase n) lowerKeyword))
         (opt_call (types place)
            (existsb (fun type =>
               JsString.includes (toLowerCase type) lowerKeyword))))
      (opt_call (vicinity place)
         (fun v => JsString.includes (toLowerCase v) lowerKeyword)).

(** The keyword, lowercased, occurs in the lowercased text. *)
Definition matches (keyword text : jsstring) : Prop :=
  JsString.substring_of (toLowerCase keyword) (toLowerCase text).

(** The filter as [Array.prototype.filter] uses it. *)
Definition relevant (keyword : jsstring) (place : RawPlace) : bool :=
  ToBoolean (isRelevantRestaurant place keyword).

End PlaceFilter.

(* ================================================================= *)
(** ** JavaScript numbers, [Map], [slice] and [sort] *)

(** A number the code computes with: a rational, or [None] for [NaN]
    (what [undefined] becomes under [ToNumber]). *)
Definition jsnum : Type := option Q.

(** [a - b] *)
Definition js_sub (a b : jsnum) : jsnum :=
  match a, b with
  | Some x, Some y => Some (x - y)
  | _, _ => None
  end.

(** [a >= b]: false as soon as one side is [NaN]. *)
Definition js_ge (a b : jsnum) : bool :=
  match a, b with
  | Some x, Some y => Qle_bool y x
  | _, _ => false
  end.

(** [a > 0] *)
Definition js_pos (a : jsnum) : bool :=
  match a with
  | Some x => negb (Qle_bool x 0)
  | None => false
  end.

(** A [Map] keyed by strings: its entries in insertion order. *)
Module JsMap.
Section WithValues.
Variable V : Type.

Definition t : Type := list (jsstring * V).

(** [m.set(k, v)]: a known key keeps its place and takes the new
    value, a new key is appended. *)
Fixpoint set (m : t) (k : jsstring) (v : V) : t :=
  match m with
  | [] => [(k, v)]
  | (k', v') :: r =>
      if JsString.eqb k' k then (k', v) :: r else (k', v') :: set r k v
  end.

Fixpoint get (m : t) (k : jsstring) : option V :=
  match m with
  | [] => None
  | (k', v') :: r => if JsString.eqb k' k then Some v' else get r k
  end.

(** The constructor adds the entries one by one, in order. *)
Definition add_entries (entries : list (jsstring * V)) (m : t) : t :=
  fold_left (fun m e => set m (fst e) (snd e)) entries m.

(** [new Map(entries)] *)
Definition of_entries (entries : list (jsstring * V)) : t :=
  add_entries entries [].

Definition keys (m : t) : list jsstring := map fst m.

(** [Array.from(m.values())] *)
Definition values (m : t) : list V := map snd m.
End WithValues.
End JsMap.

(** [a.slice(0, e)] for an integral [e]: a negative [e] counts from the
    end of the array. *)
Definition slice0 {A : Type} (a : list A) (e : Z) : list A :=
  let len := Z.of_nat (List.length a) in
  let final := if (e <? 0)%Z then Z.max (len + e) 0 else Z.min e len in
  firstn (Z.to_nat final) a.

(** [Math.ceil(n / 2)] for an array length [n]. *)
Definition ceil_half (n : nat) : Z :=
  Qceiling (inject_Z (Z.of_nat n) / 2).

(** Computations that thread a state, as a comparator that draws random
    numbers does. *)
Definition State (S A : Type) : Type := S -> A * S.

Definition ret {S A : Type} (x : A) : State S A := fun s => (x, s).

Definition bind {S A B : Type} (m : State S A) (k : A -> State S B)
  : State S B :=
  fun s => let (x, s') := m s in k x s'.

Notation "x <- m ;; k" := (bind m (fun x => k))
  (at level 61, m at next level, right associativity).

(** [Array.prototype.sort(comparefn)].  Which elements an engine
    compares, and in which order, is its own business.  With a
    consistent comparator the language fixes the result, a stable sort,
    and the model computes it: a stable insertion sort, in which each
    element in turn is moved left past every neighbour [tmp] with
    [comparefn(tmp, element) > 0].  With a comparator that is not
    consistent, as the random one of the shuffle, the order of the
    result is the engine's; what the model shares with every engine is
    that the result is a permutation of the array, and nothing more is
    drawn from it below. *)
Section ArraySort.
Variables S A : Type.
Variable comparefn : A -> A -> State S jsnum.

(** [sorted_rev] is the sorted prefix, last element first. *)
Fixpoint insert (sorted_rev : list A) (element : A) : State S (list A) :=
  match sorted_rev with
  | [] => ret [element]
  | tmp :: rest =>
      order <- comparefn tmp element ;;
      if js_pos order
      then (r <- insert rest element ;; ret (tmp :: r))
      else ret (element :: tmp :: rest)
  end.

Fixpoint sort_loop (sorted_rev todo : list A) : State S (list A) :=
  match todo with
  | [] => ret (rev sorted_rev)
  | element :: todo' =>
      sorted_rev' <- insert sorted_rev element ;;
      sort_loop sorted_rev' todo'
  end.

Definition Array_sort (a : list A) : State S (list A) :=
  sort_loop [] a.
End ArraySort.

(** The random source of one run: the successive values of
    [Math.random()], each in [[0, 1)]; the state is the number of values
    drawn so far. *)
Definition RandomSource : Type := nat -> Q.

Definition Math_random (rnd : RandomSource) : State nat Q :=
  fun i => (rnd i, Datatypes.S i).

(* ================================================================= *)
(** ** External collaborators and the view state *)

(** [google.maps.places.PlacesServiceStatus] *)
Inductive PlacesServiceStatus : Type :=
| OK
| ZERO_RESULTS
| INVALID_REQUEST
| OVER_QUERY_LIMIT
| REQUEST_DENIED
| UNKNOWN_ERROR
| NOT_FOUND.

Definition is_OK (s : PlacesServiceStatus) : bool :=
  match s with OK => true | _ => false end.

(** A restaurant marker with the info window stored on it. *)
Record Marker : Type := mkMarker {
  marker_place : RawPlace;
  marker_position : Coordinate;
  infoWindow_open : bool
}.

(** The marker of the current location. *)
Record LocationMarker : Type := mkLocationMarker {
  loc_position : Coordinate;
  loc_on_map : bool;
  loc_infoWindow_open : bool
}.

(** How a function body ends. *)
Inductive Completion : Type :=
| Normal
| Thrown.

(** What [getRandomRestaurants] reports on the console. *)
Inductive Outcome : Type :=
| ServiceNotInitialized
| WaitingForLocation
| NoRestaurantsFound
| Selected
| ErrorCaught.

Section Component.

Variable toLowerCase : jsstring -> jsstring.

(** The record [getDetails] answers with. *)
Variable PlaceDetails : Type.

(** What the map widget makes of [fitBounds]: a centre and a zoom. *)
Variable fitBounds : list Coordinate -> Coordinate * Q.

(** The places provider and the geometry library. *)
Record Provider : Type := mkProvider {
  nearbySearch : SearchRequest -> PlacesServiceStatus * option (list RawPlace);
  getDetails : jsstring -> list jsstring
               -> PlacesServiceStatus * option PlaceDetails;
  spherical : option (Coordinate -> Coordinate -> Q)
}.

(** [{ ...place, details, distance }] *)
Record SelectedRestaurant : Type := mkSelected {
  place : RawPlace;
  details : option PlaceDetails;
  distance : option Q
}.

(** The refs of the component, with the part of the map widget the
    code drives. *)
Record ViewState : Type := mkViewState {
  service : bool;
  markers : list Marker;
  currentLocationMarker : option LocationMarker;
  currentPosition : option Coordinate;
  isLocationReady : bool;
  numberOfRestaurants : Z;
  searchRadius : Z;
  searchKeyword : jsstring;
  selectedRestaurants : list SelectedRestaurant;
  showConfetti : bool;
  mapCenter : Coordinate;
  mapZoom : Q
}.

Definition defaultPosition : Coordinate :=
  {| lat := 22.6247; lng := 120.3578 |}.

(** The state once [initMap] has built the map and the service. *)
Definition initialState : ViewState :=
  {| service := true;
     markers := [];
     currentLocationMarker := None;
     currentPosition := None;
     isLocationReady := false;
     numberOfRestaurants := 3;
     searchRadius := 1500;
     searchKeyword := [];
     selectedRestaurants := [];
     showConfetti := false;
     mapCenter := defaultPosition;
     mapZoom := 15 |}.

Definition set_markers (ms : list Marker) (st : ViewState) : ViewState :=
  {| service := service st;
     markers := ms;
     currentLocationMarker := currentLocationMarker st;
     currentPosition := currentPosition st;
     isLocationReady := isLocationReady st;
     numberOfRestaurants := numberOfRestaurants st;
     searchRadius := searchRadius st;
     searchKeyword := searchKeyword st;
     selectedRestaurants := selectedRestaurants st;
     showConfetti := showConfetti st;
     mapCenter := mapCenter st;
     mapZoom := mapZoom st |}.

Definition set_selectedRestaurants (rs : list SelectedRestaurant)
    (st : ViewState) : ViewState :=
  {| service := service st;
     markers := markers st;
     currentLocationMarker := currentLocationMarker st;
     currentPosition := currentPosition st;
     isLocationReady := isLocationReady st;
     numberOfRestaurants := numberOfRestaurants st;
     searchRadius := searchRadius st;
     searchKeyword := searchKeyword st;
     selectedRestaurants := rs;
     showConfetti := showConfetti st;
     mapCenter := mapCenter st;
     mapZoom := mapZoom st |}.

Definition set_location (pos : option Coordinate) (ready : bool)
    (st : ViewState) : ViewState :=
  {| service := service st;
     markers := markers st;
     currentLocationMarker := currentLocationMarker st;
     currentPosition := pos;
     isLocationReady := ready;
     numberOfRestaurants := numberOfRestaurants st;
     searchRadius := searchRadius st;
     searchKeyword := searchKeyword st;
     selectedRestaurants := selectedRestaurants st;
     showConfetti := showConfetti st;
     mapCenter := mapCenter st;
     mapZoom := mapZoom st |}.

Definition set_locationMarker (m : option LocationMarker)
    (st : ViewState) : ViewState :=
  {| service := service st;
     markers := markers st;
     currentLocationMarker := m;
     currentPosition := currentPosition st;
     isLocationReady := isLocationReady st;
     numberOfRestaurants := numberOfRestaurants st;
     searchRadius := searchRadius st;
     searchKeyword := searchKeyword st;
     selectedRestaurants := selectedRestaurants st;
     showConfetti := showConfetti st;
     mapCenter := mapCenter st;
     mapZoom := mapZoom st |}.

Definition set_viewport (c : Coordinate) (z : Q) (st : ViewState)
  : ViewState :=
  {| service := service st;
     markers := markers st;
     currentLocationMarker := currentLocationMarker st;
     currentPosition := currentPosition st;
     isLocationReady := isLocationReady st;
     numberOfRestaurants := numberOfRestaurants st;
     searchRadius := searchRadius st;
     searchKeyword := searchKeyword st;
     selectedRestaurants := selectedRestaurants st;
     showConfetti := showConfetti st;
     mapCenter := c;
     mapZoom := z |}.

(** The keyword input, bound with [v-model]. *)
Definition set_searchKeyword (kw : jsstring) (st : ViewState) : ViewState :=
  {| service := service st;
     markers := markers st;
     currentLocationMarker := currentLocationMarker st;
     currentPosition := currentPosition st;
     isLocationReady := isLocationReady st;
     numberOfRestaurants := numberOfRestaurants st;
     searchRadius := searchRadius st;
     searchKeyword := kw;
     selectedRestaurants := selectedRestaurants st;
     showConfetti := showConfetti st;
     mapCenter := mapCenter st;
     mapZoom := mapZoom st |}.

Definition set_showConfetti (b : bool) (st : ViewState) : ViewState :=
  {| service := service st;
     markers := markers st;
     currentLocationMarker := currentLocationMarker st;
     currentPosition := currentPosition st;
     isLocationReady := isLocationReady st;
     numberOfRestaurants := numberOfRestaurants st;
     searchRadius := searchRadius st;
     searchKeyword := searchKeyword st;
     selectedRestaurants := selectedRestaurants st;
     showConfetti := b;
     mapCenter := mapCenter st;
     mapZoom := mapZoom st |}.

(* =============================================================== *)
(** ** MapSync: [updateCurrentLocationMarker], [updateMapMarkers] *)

Definition updateCurrentLocationMarker (st : ViewState) : ViewState :=
  let st1 :=
    match currentLocationMarker st with
    | Some m =>
        set_locationMarker
          (Some {| loc_position := loc_position m;
                   loc_on_map := false;
                   loc_infoWindow_open := loc_infoWindow_open m |}) st
    | None => st
    end in
  match currentPosition st1 with
  | Some pos =>
      set_viewport pos (mapZoom st1)
        (set_locationMarker
           (Some {| loc_position := pos;
                    loc_on_map := true;
                    loc_infoWindow_open := true |}) st1)
  | None => st1
  end.

Definition is_operational (p : RawPlace) : bool :=
  match business_status p with
  | Some s => BusinessStatus_eqb s OPERATIONAL
  | None => false
  end.

(** The [forEach] that creates the restaurant markers.  Reading
    [restaurant.geometry.location] of a record without [geometry]
    throws and leaves the markers pushed so far. *)
Fixpoint addRestaurantMarkers (rs : list SelectedRestaurant)
    (ms : list Marker) : list Marker * Completion :=
  match rs with
  | [] => (ms, Normal)
  | restaurant :: rs' =>
      if negb (is_operational (place restaurant))
      then addRestaurantMarkers rs' ms
      else
        match geometry (place restaurant) with
        | None => (ms, Thrown)
        | Some position =>
            addRestaurantMarkers rs'
              (ms ++ [ {| marker_place := place restaurant;
                          marker_position := position;
                          infoWindow_open := true |} ])
        end
  end.

(** The points the bounds are extended with. *)
Definition boundsOf (st : ViewState) : list Coordinate :=
  flat_map (fun r => match geometry (place r) with
                     | Some c => [c]
                     | None => []
                     end) (selectedRestaurants st)
  ++ match currentPosition st with
     | Some c => [c]
     | None => []
     end.

Definition updateMapMarkers (st : ViewState) : ViewState * Completion :=
  match addRestaurantMarkers (selectedRestaurants st) [] with
  | (ms, Thrown) => (set_markers ms st, Thrown)
  | (ms, Normal) =>
      let st1 := updateCurrentLocationMarker (set_markers ms st) in
      match selectedRestaurants st1 with
      | [] => (st1, Normal)
      | _ :: _ =>
          let (c, z) := fitBounds (boundsOf st1) in
          (set_viewport c (z - 0.5) st1, Normal)
      end
  end.

(** The click listener of the [i]-th restaurant marker: close the info
    window of every marker in [markers], then open its own. *)
Definition closeInfoWindow (m : Marker) : Marker :=
  {| marker_place := marker_place m;
     marker_position := marker_position m;
     infoWindow_open := false |}.

Definition openInfoWindow (m : Marker) : Marker :=
  {| marker_place := marker_place m;
     marker_position := marker_position m;
     infoWindow_open := true |}.

Fixpoint update_nth {A : Type} (i : nat) (f : A -> A) (l : list A)
  : list A :=
  match l, i with
  | [], _ => []
  | x :: r, O => f x :: r
  | x :: r, Datatypes.S j => x :: update_nth j f r
  end.

Definition clickMarker (i : nat) (st : ViewState) : ViewState :=
  if (i <? List.length (markers st))%nat
  then set_markers
         (update_nth i openInfoWindow (map closeInfoWindow (markers st)))
         st
  else st.

(** A series of clicks, first to last. *)
Definition clickAll (clicks : list nat) (st : ViewState) : ViewState :=
  fold_left (fun s i => clickMarker i s) clicks st.

(** The number of restaurant markers whose info window is open. *)
Definition openCount (st : ViewState) : nat :=
  List.length (filter infoWindow_open (markers st)).

(* =============================================================== *)
(** ** Detail and distance enrichment *)

Definition detailFields : list jsstring :=
  map js [ "opening_hours"; "formatted_phone_number"; "url"; "website";
           "editorial_summary"; "reviews"; "user_ratings_total";
           "international_phone_number"; "types";
           "wheelchair_accessible_entrance" ]%string.

Definition getPlaceDetails (prov : Provider) (placeId : jsstring)
  : option PlaceDetails :=
  let (status, place) := getDetails prov placeId detailFields in
  if is_OK status then place else None.

Definition calculateDistance (prov : Provider) (p1 p2 : option Coordinate)
  : option Q :=
  match p1, p2, spherical prov with
  | Some point1, Some point2, Some computeDistanceBetween =>
      Some (computeDistanceBetween point1 point2)
  | _, _, _ => None
  end.

(* =============================================================== *)
(** ** SelectionPipeline: [getRandomRestaurants] *)

(** One [nearbySearch], resolved to its results or to [[]]. *)
Definition search (prov : Provider) (request : SearchRequest)
  : list RawPlace :=
  match nearbySearch prov request with
  | (status, Some results) => if is_OK status then results else []
  | (_, None) => []
  end.

Definition searchParams (st : ViewState) : list SearchRequest :=
  map (fun request => {| fragment := request;
                         location := currentPosition st;
                         radius := searchRadius st |})
      (getSearchRequests (searchKeyword st)).

(** The concatenation of the answers to all requests. *)
Definition allResults (prov : Provider) (st : ViewState) : list RawPlace :=
  List.concat (map (search prov) (searchParams st)).

(** [Array.from(new Map(all.map(item => [item.place_id, item])).values())] *)
Definition dedup (all : list RawPlace) : list RawPlace :=
  JsMap.values
    (JsMap.of_entries (map (fun item => (place_id item, item)) all)).

(** The last record of [all] carrying the id. *)
Definition lastSeen (id : jsstring) (all : list RawPlace) : option RawPlace :=
  find (fun p => JsString.eqb (place_id p) id) (rev all).

Definition uniqueResults (prov : Provider) (st : ViewState)
  : list RawPlace :=
  filter (relevant toLowerCase (searchKeyword st))
         (dedup (allResults prov st)).

(** [place.rating >= 3.5] *)
Definition qualityFloor (p : RawPlace) : bool :=
  js_ge (rating p) (Some 3.5).

(** The place has no rating, or one under the floor. *)
Definition belowFloor (p : RawPlace) : Prop :=
  match rating p with
  | Some r => r < 3.5
  | None => True
  end.

(** The place carries a rating. *)
Definition rated (p : RawPlace) : Prop := rating p <> None.

(** Both places are rated, [a] at least as high as [b]. *)
Definition ratingGe (a b : RawPlace) : Prop :=
  match rating a, rating b with
  | Some x, Some y => y <= x
  | _, _ => False
  end.

(** [(a, b) => b.rating - a.rating] *)
Definition byRating (a b : RawPlace) : State unit jsnum :=
  ret (js_sub (rating b) (rating a)).

Definition sortedResults (unique : list RawPlace) : list RawPlace :=
  fst (Array_sort byRating (filter qualityFloor unique) tt).

Definition topHalf (unique : list RawPlace) : list RawPlace :=
  let sorted := sortedResults unique in
  slice0 sorted (ceil_half (List.length sorted)).

(** [() => 0.5 - Math.random()] *)
Definition coin (rnd : RandomSource) (_ _ : RawPlace) : State nat jsnum :=
  r <- Math_random rnd ;; ret (Some (0.5 - r)).

Definition shuffled (rnd : RandomSource) (pool : list RawPlace)
  : list RawPlace :=
  fst (Array_sort (coin rnd) pool 0%nat).

(** [shuffled.slice(0, numberOfRestaurants.value)] *)
Definition selected (rnd : RandomSource) (count : Z)
    (unique : list RawPlace) : list RawPlace :=
  slice0 (shuffled rnd (topHalf unique)) count.

Definition enrich (prov : Provider) (st : ViewState) (p : RawPlace)
  : SelectedRestaurant :=
  {| place := p;
     details := getPlaceDetails prov (place_id p);
     distance := calculateDistance prov (currentPosition st) (geometry p) |}.

Definition triggerConfetti (st : ViewState) : ViewState :=
  set_showConfetti true st.

Definition getRandomRestaurants (prov : Provider) (rnd : RandomSource)
    (st : ViewState) : ViewState * Outcome :=
  if negb (service st) then (st, ServiceNotInitialized)
  else if negb (isLocationReady st) then (st, WaitingForLocation)
  else
    let unique := uniqueResults prov st in
    match unique with
    | [] => (st, NoRestaurantsFound)
    | _ :: _ =>
        let chosen := selected rnd (numberOfRestaurants st) unique in
        let st1 := set_selectedRestaurants (map (enrich prov st) chosen) st in
        match updateMapMarkers st1 with
        | (st2, Thrown) => (st2, ErrorCaught)
        | (st2, Normal) =>
            match selectedRestaurants st2 with
            | [] => (st2, Selected)
            | _ :: _ => (triggerConfetti st2, Selected)
            end
        end
    end.

(* =============================================================== *)
(** ** Input validation on blur *)

Definition checkNumberOfRestaurants (st : ViewState) : ViewState :=
  let value := numberOfRestaurants st in
  let set n :=
    {| service := service st;
       markers := markers st;
       currentLocationMarker := currentLocationMarker st;
       currentPosition := currentPosition st;
       isLocationReady := isLocationReady st;
       numberOfRestaurants := n;
       searchRadius := searchRadius st;
       searchKeyword := searchKeyword st;
       selectedRestaurants := selectedRestaurants st;
       showConfetti := showConfetti st;
       mapCenter := mapCenter st;
       mapZoom := mapZoom st |} in
  if (value <? 1)%Z then set 1%Z
  else if (10 <? value)%Z then set 10%Z
  else st.

(* =============================================================== *)
(** ** GeolocationResolver: [getUserLocation] *)

(** [GeolocationPositionError.code] *)
Inductive PositionError : Type :=
| PERMISSION_DENIED
| POSITION_UNAVAILABLE
| TIMEOUT
| UnknownError.

(** The 10 s timer set by [setTimeout]. *)
Inductive Timer : Type :=
| NotSet
| Armed
| Cleared
| Fired.

(** One call of [getUserLocation]: the view it writes to, the timer,
    whether [getCurrentPosition] still owes a callback, whether the
    promise is settled, and two counters that record how often the
    location-ready flag was written and how often
    [updateCurrentLocationMarker] was called. *)
Record Resolution : Type := mkResolution {
  view : ViewState;
  locationTimeout : Timer;
  callbackPending : bool;
  settled : bool;
  readyWrites : nat;
  markerUpdates : nat
}.

(** The four statements every path ends with:
    [currentPosition.value = pos; isLocationReady.value = true;
     updateCurrentLocationMarker(); resolve()]. *)
Definition settleWith (pos : Coordinate) (r : Resolution) : Resolution :=
  {| view := updateCurrentLocationMarker (set_location (Some pos) true (view r));
     locationTimeout := locationTimeout r;
     callbackPending := callbackPending r;
     settled := true;
     readyWrites := Datatypes.S (readyWrites r);
     markerUpdates := Datatypes.S (markerUpdates r) |}.

(** [clearTimeout(locationTimeout)]: cancels a timer that has not fired,
    does nothing to one that has. *)
Definition clearTimeout (r : Resolution) : Resolution :=
  {| view := view r;
     locationTimeout := match locationTimeout r with
                        | Armed => Cleared
                        | t => t
                        end;
     callbackPending := callbackPending r;
     settled := settled r;
     readyWrites := readyWrites r;
     markerUpdates := markerUpdates r |}.

Definition set_timer (t : Timer) (pending : bool) (r : Resolution)
  : Resolution :=
  {| view := view r;
     locationTimeout := t;
     callbackPending := pending;
     settled := settled r;
     readyWrites := readyWrites r;
     markerUpdates := markerUpdates r |}.

(** The synchronous part: without [navigator.geolocation] the default
    position at once; otherwise the timer is armed and the position
    requested. *)
Definition getUserLocation (supported : bool) (st : ViewState)
  : Resolution :=
  let r := {| view := st;
              locationTimeout := NotSet;
              callbackPending := false;
              settled := false;
              readyWrites := 0;
              markerUpdates := 0 |} in
  if negb supported
  then settleWith defaultPosition r
  else set_timer Armed true r.

(** What the platform can deliver afterwards. *)
Inductive GeoEvent : Type :=
| TimerExpires
| PositionFound (position : Coordinate)
| PositionFailed (error : PositionError).

(** The callback run for an event; [None] when the platform cannot
    deliver it: a timer fires only while armed, and
    [getCurrentPosition] calls back once. *)
Definition deliver (e : GeoEvent) (r : Resolution) : option Resolution :=
  match e with
  | TimerExpires =>
      match locationTimeout r with
      | Armed => Some (settleWith defaultPosition
                         (set_timer Fired (callbackPending r) r))
      | _ => None
      end
  | PositionFound position =>
      if callbackPending r
      then Some (settleWith position
                   (clearTimeout (set_timer (locationTimeout r) false r)))
      else None
  | PositionFailed _ =>
      if callbackPending r
      then Some (settleWith defaultPosition
                   (clearTimeout (set_timer (locationTimeout r) false r)))
      else None
  end.

Fixpoint deliverAll (es : list GeoEvent) (r : Resolution)
  : option Resolution :=
  match es with
  | [] => Some r
  | e :: es' =>
      match deliver e r with
      | Some r' => deliverAll es' r'
      | None => None
      end
  end.

(** The states a resolution goes through. *)
Definition geoInvariant (r : Resolution) : Prop :=
  readyWrites r = markerUpdates r
  /\ (   locationTimeout r = Armed /\ callbackPending r = true
         /\ readyWrites r = 0%nat /\ settled r = false
      \/ locationTimeout r = Fired /\ callbackPending r = true
         /\ readyWrites r = 1%nat /\ settled r = true
      \/ locationTimeout r = Cleared /\ callbackPending r = false
         /\ readyWrites r = 1%nat /\ settled r = true
      \/ locationTimeout r = Fired /\ callbackPending r = false
         /\ readyWrites r = 2%nat /\ settled r = true
      \/ locationTimeout r = NotSet /\ callbackPending r = false
         /\ readyWrites r = 1%nat /\ settled r = true).

(* =============================================================== *)
(** ** More of the component: radius check, initialisation *)

(** The radius input on blur. *)
Definition checkSearchRadius (st : ViewState) : ViewState :=
  let value := searchRadius st in
  let set n :=
    {| service := service st;
       markers := markers st;
       currentLocationMarker := currentLocationMarker st;
       currentPosition := currentPosition st;
       isLocationReady := isLocationReady st;
       numberOfRestaurants := numberOfRestaurants st;
       searchRadius := n;
       searchKeyword := searchKeyword st;
       selectedRestaurants := selectedRestaurants st;
       showConfetti := showConfetti st;
       mapCenter := mapCenter st;
       mapZoom := mapZoom st |} in
  if (value <? 500)%Z then set 500%Z
  else if (5000 <? value)%Z then set 5000%Z
  else st.

(** The count and radius inputs, bound with [v-model]. *)
Definition set_inputs (count radius : Z) (st : ViewState) : ViewState :=
  {| service := service st;
     markers := markers st;
     currentLocationMarker := currentLocationMarker st;
     currentPosition := currentPosition st;
     isLocationReady := isLocationReady st;
     numberOfRestaurants := count;
     searchRadius := radius;
     searchKeyword := searchKeyword st;
     selectedRestaurants := selectedRestaurants st;
     showConfetti := showConfetti st;
     mapCenter := mapCenter st;
     mapZoom := mapZoom st |}.

(** The refs as the script sets them up, before [initMap] has run: no
    map and no service yet. *)
Definition setupState : ViewState :=
  {| service := false;
     markers := [];
     currentLocationMarker := None;
     currentPosition := None;
     isLocationReady := false;
     numberOfRestaurants := 3;
     searchRadius := 1500;
     searchKeyword := [];
     selectedRestaurants := [];
     showConfetti := false;
     mapCenter := defaultPosition;
     mapZoom := 15 |}.

(** [new google.maps.Map(mapRef.value, { center: defaultPosition,
    zoom: 15 })] and [new PlacesService(map.value)]. *)
Definition createMap (st : ViewState) : ViewState :=
  {| service := true;
     markers := markers st;
     currentLocationMarker := currentLocationMarker st;
     currentPosition := currentPosition st;
     isLocationReady := isLocationReady st;
     numberOfRestaurants := numberOfRestaurants st;
     searchRadius := searchRadius st;
     searchKeyword := searchKeyword st;
     selectedRestaurants := selectedRestaurants st;
     showConfetti := showConfetti st;
     mapCenter := defaultPosition;
     mapZoom := 15 |}.

(** How [initMap] goes on: it gave up, the error logged, or it built the
    map and waits for the location. *)
Inductive Initialisation : Type :=
| InitFailed (st : ViewState)
| Locating (r : Resolution).

(** [initMap].  [loaded] tells whether [waitForGoogleMaps()] resolved
    (it rejects when the script fails to load), [mounted] whether
    [mapRef.value] is set, [supported] whether the platform has
    [navigator.geolocation]. *)
Definition initMap (loaded mounted supported : bool) (st : ViewState)
  : Initialisation :=
  if negb loaded then InitFailed st
  else if negb mounted then InitFailed st
  else Locating (getUserLocation supported (createMap st)).

(** The position an event leaves in [currentPosition]. *)
Definition eventPosition (e : GeoEvent) : Coordinate :=
  match e with
  | PositionFound position => position
  | TimerExpires | PositionFailed _ => defaultPosition
  end.

(** The marker [updateMapMarkers] makes for a restaurant at a
    position. *)
Definition markerOf (restaurant : SelectedRestaurant) (position : Coordinate)
  : Marker :=
  {| marker_place := place restaurant;
     marker_position := position;
     infoWindow_open := true |}.

End Component.

(* ================================================================= *)
(** ** The shuffle as seen from outside the engine *)

(** All sequences of [n] bits, each as likely as every other when the
    bits are fair coin flips. *)
Fixpoint patterns (n : nat) : list (list bool) :=
  match n with
  | O => [[]]
  | Datatypes.S k =>
      map (cons true) (patterns k) ++ map (cons false) (patterns k)
  end.

(** The comparator of the shuffle, [() => 0.5 - Math.random()], does not
    look at the elements: each of its answers is positive or not with
    probability one half, a fair coin flip.  Whatever algorithm an
    engine sorts with, what it makes of an array under this comparator
    is therefore a function of the answers it gets; an engine that asks
    at most [d] times is a function of [d] flips.
    [tally engine d o] counts the sequences of [d] flips that [engine]
    turns into [o]: the probability of [o] is that count over
    [2 ^ d]. *)
Section Tally.
Variable A : Type.
Variable A_eq_dec : forall x y : A, {x = y} + {x <> y}.

Definition tally (engine : list bool -> A) (d : nat) (o : A) : nat :=
  List.length
    (filter (fun bits => if A_eq_dec (engine bits) o then true else false)
            (patterns d)).
End Tally.

(** Places are records of decidable components. *)
Definition RawPlace_eq_dec (a b : RawPlace) : {a = b} + {a <> b}.
Proof. repeat decide equality. Defined.

Definition arrangement_eq_dec : forall a b : list RawPlace, {a = b} + {a <> b}
  := list_eq_dec RawPlace_eq_dec.

(** [engine] shuffles [pool]: whatever the flips, it answers with a
    rearrangement of the pool. *)
Definition rearranges (pool : list RawPlace)
    (engine : list bool -> list RawPlace) : Prop :=
  forall bits, Permutation pool (engine bits).

(** [engine], reading [d] flips, makes every rearrangement of [pool] as
    likely as every other. *)
Definition evenly (pool : list RawPlace) (d : nat)
    (engine : list bool -> list RawPlace) : Prop :=
  forall s1 s2,
    Permutation pool s1 -> Permutation pool s2 ->
    tally arrangement_eq_dec engine d s1 = tally arrangement_eq_dec engine d s2.

(** All rearrangements of a list: [x] put at each place of each
    rearrangement of the rest. *)
Fixpoint insertions {A : Type} (x : A) (l : list A) : list (list A) :=
  match l with
  | [] => [[x]]
  | y :: r => (x :: y :: r) :: map (cons y) (insertions x r)
  end.

Fixpoint rearrangements {A : Type} (l : list A) : list (list A) :=
  match l with
  | [] => [[]]
  | x :: r => flat_map (insertions x) (rearrangements r)
  end.

(** A place with [geometry.location]. *)
Definition located (p : RawPlace) : Prop := geometry p <> None.

(** The ids of a list in the order of their first occurrence. *)
Fixpoint firstOccurrences (ids : list jsstring) : list jsstring :=
  match ids with
  | [] => []
  | id :: rest =>
      id :: filter (fun k => negb (JsString.eqb id k)) (firstOccurrences rest)
  end.

(* ================================================================= *)
(** ** The hot-pot scenario *)

Module Scenario.

(** [toLowerCase] on the letters A to Z; the scenario has no other
    cased letter. *)
Definition toLowerCase (s : jsstring) : jsstring :=
  map (fun c => if ((65 <=? c) && (c <=? 90))%N then (c + 32)%N else c) s.

Definition fitBounds (points : list Coordinate) : Coordinate * Q :=
  (hd defaultPosition points, 14).

Definition mkPlaceWith (status : BusinessStatus) (id : string) (r : Q)
  : RawPlace :=
  {| place_id := js id;
     name := Some (Lit.hotpot ++ Lit.space ++ js id);
     rating := Some r;
     business_status := Some status;
     types := Some [js "restaurant"; js "food"];
     vicinity := Some (js "Fengshan District");
     geometry := Some defaultPosition |}.

Definition mkPlace : string -> Q -> RawPlace := mkPlaceWith OPERATIONAL.

Definition p1 := mkPlace "p1" 5.
Definition p2 := mkPlace "p2" 4.8.
Definition p3 := mkPlace "p3" 4.5.
Definition p4 := mkPlace "p4" 4.2.
Definition p5 := mkPlace "p5" 4.0.
Definition p6 := mkPlace "p6" 3.8.
Definition p7 := mkPlace "p7" 3.6.
Definition p8 := mkPlace "p8" 3.4.
Definition p9 := mkPlace "p9" 3.2.
Definition p10 := mkPlace "p10" 3.0.

Definition places : list RawPlace :=
  [p1; p2; p3; p4; p5; p6; p7; p8; p9; p10].

(** The mocked provider: every search answers with the ten places. *)
Definition provider : Provider Datatypes.unit :=
  {| nearbySearch := fun _ => (OK, Some places);
     getDetails := fun _ _ => (OK, Some tt);
     spherical := Some (fun _ _ => 0) |}.

(** Located at the default position, keyword hot pot, radius 1500,
    count 3. *)
Definition state : ViewState Datatypes.unit :=
  set_searchKeyword Lit.hotpot (view (getUserLocation false (initialState _))).

(** Every draw under one half, every draw over it. *)
Definition allUnder : RandomSource := fun _ => 0.25.
Definition allOver : RandomSource := fun _ => 0.75.

Definition run (rnd : RandomSource) : ViewState Datatypes.unit * Outcome :=
  getRandomRestaurants toLowerCase fitBounds provider rnd state.

(** A second provider, which knows closed places only, and the state a
    first search has left, three restaurants on display. *)
Definition closedProvider : Provider Datatypes.unit :=
  {| nearbySearch := fun _ =>
       (OK, Some [ mkPlaceWith CLOSED_TEMPORARILY "c1" 4.9;
                   mkPlaceWith CLOSED_PERMANENTLY "c2" 4.7 ]);
     getDetails := fun _ _ => (NOT_FOUND, None);
     spherical := None |}.

(** A third one, whose places are open but rated under the floor. *)
Definition lowProvider : Provider Datatypes.unit :=
  {| nearbySearch := fun _ => (OK, Some [ mkPlace "l1" 3.2; mkPlace "l2" 3.0 ]);
     getDetails := fun _ _ => (NOT_FOUND, None);
     spherical := None |}.

Definition shown : ViewState Datatypes.unit := fst (run allOver).

(** The markers of that state, reconciled once more. *)
Definition reconciled : ViewState Datatypes.unit :=
  fst (updateMapMarkers fitBounds shown).

(** The provider of the scenario with a details lookup that fails. *)
Definition noDetailsProvider : Provider Datatypes.unit :=
  {| nearbySearch := nearbySearch provider;
     getDetails := fun _ _ => (UNKNOWN_ERROR, None);
     spherical := spherical provider |}.

(** A provider that refuses every search. *)
Definition deniedProvider : Provider Datatypes.unit :=
  {| nearbySearch := fun _ => (REQUEST_DENIED, None);
     getDetails := fun _ _ => (REQUEST_DENIED, None);
     spherical := None |}.

(** A selection whose second restaurant has no location. *)
Definition unlocated : RawPlace :=
  {| place_id := js "u1";
     name := Some (js "u1");
     rating := Some 4.4;
     business_status := Some OPERATIONAL;
     types := None;
     vicinity := None;
     geometry := None |}.

Definition located1 : SelectedRestaurant Datatypes.unit :=
  {| place := p1; details := Some tt; distance := Some 0 |}.

Definition unlocated2 : SelectedRestaurant Datatypes.unit :=
  {| place := unlocated; details := None; distance := None |}.

Definition located3 : SelectedRestaurant Datatypes.unit :=
  {| place := p3; details := Some tt; distance := Some 0 |}.

Definition brokenState : ViewState Datatypes.unit :=
  set_selectedRestaurants [located1; unlocated2; located3] state.

(** A position found after the timer has fired. *)
Definition taipei : Coordinate := {| lat := 25.033; lng := 121.5654 |}.

Definition lateEvents : list GeoEvent := [TimerExpires; PositionFound taipei].

Definition lateResolution (st : ViewState Datatypes.unit)
  : Resolution Datatypes.unit :=
  settleWith taipei
    (clearTimeout
       (set_timer Fired false
          (settleWith defaultPosition
             (set_timer Fired true (getUserLocation true st))))).

(** Keywords of the examples: hot pot inside a longer word, two blanks,
    and a word in two spellings. *)
Definition spicyHotpot : jsstring := [0x9EBB; 0x8FA3; 0x706B; 0x934B]%N.
Definition blanks : jsstring := js "  ".
Definition pizzaUpper : jsstring := js "PIZZA".
Definition pizzaLower : jsstring := js "pizza".

End Scenario.

(* ================================================================= *)
(** * Properties *)

(** ** Strings *)

Module JsStringFacts.
Import JsString.

Lemma eqb_eq (a b : t) : eqb a b = true <-> a = b.
Proof.
  unfold eqb. destruct (list_eq_dec N.eq_dec a b); split; congruence.
Qed.

Lemma eqb_refl (a : t) : eqb a a = true.
Proof. now apply eqb_eq. Qed.

Lemma eqb_neq (a b : t) : eqb a b = false <-> a <> b.
Proof.
  unfold eqb. destruct (list_eq_dec N.eq_dec a b); split; congruence.
Qed.

Lemma startsWith_spec (s p : t) :
  startsWith s p = true <-> exists b, s = p ++ b.
Proof.
  revert s; induction p as [|a p IH]; intros s; simpl.
  - split; [intros _; now exists s | reflexivity].
  - destruct s as [|b s].
    + split; [discriminate | intros [r H]; discriminate].
    + rewrite andb_true_iff, N.eqb_eq, IH. split.
      * intros [-> [r ->]]. now exists r.
      * intros [r H]. injection H as -> ->. eauto.
Qed.

Lemma includes_spec (s p : t) :
  includes s p = true <-> substring_of p s.
Proof.
  unfold substring_of.
  induction s as [|c s IH]; simpl; rewrite orb_true_iff, startsWith_spec.
  - split.
    + intros [[b H] | H]; [|discriminate]. exists [], b. exact H.
    + intros (a & b & H). left.
      destruct a; [now exists b|discriminate].
  - rewrite IH. split.
    + intros [[b H] | (a & b & H)].
      * exists [], b. exact H.
      * exists (c :: a), b. simpl. now rewrite H.
    + intros (a & b & H). destruct a as [|x a]; simpl in H.
      * left. now exists b.
      * right. injection H as _ H. now exists a, b.
Qed.

Lemma truthy_nil (s : t) : truthy s = false <-> s = [].
Proof. destruct s; simpl; split; congruence. Qed.

(** Only white space is stripped, so a trimmed string is empty exactly
    when the string holds nothing else. *)
Lemma trimStart_nil (s : t) :
  trimStart s = [] <-> forallb isWhiteSpace s = true.
Proof.
  induction s as [|c s IH]; simpl.
  - tauto.
  - destruct (isWhiteSpace c); simpl; [exact IH|].
    split; discriminate.
Qed.

Lemma trimStart_head (s : t) (u : unit) (l : t) :
  trimStart s = u :: l -> isWhiteSpace u = false.
Proof.
  induction s as [|c s IH]; simpl; [discriminate|].
  destruct (isWhiteSpace c) eqn:W; [exact IH|].
  intros E. now injection E as <- _.
Qed.

Lemma trimStart_suffix (s : t) : exists a, s = a ++ trimStart s.
Proof.
  induction s as [|c s [a IH]]; simpl.
  - now exists [].
  - destruct (isWhiteSpace c).
    + exists (c :: a). simpl. now f_equal.
    + now exists [].
Qed.

Lemma trim_nil (s : t) :
  trim s = [] <-> forallb isWhiteSpace s = true.
Proof.
  unfold trim, trimEnd. split.
  - intros H. apply (f_equal (@rev unit)) in H.
    rewrite rev_involutive in H. simpl in H.
    apply trimStart_nil in H.
    destruct (trimStart s) as [|u l] eqn:E; [now apply trimStart_nil|].
    apply trimStart_head in E.
    rewrite forallb_forall in H.
    assert (K : In u (rev (u :: l))) by (apply -> in_rev; now left).
    apply H in K. congruence.
  - intros H. apply trimStart_nil in H. now rewrite H.
Qed.

End JsStringFacts.

(* ================================================================= *)
(** ** SearchRequestBuilder *)

Section BuilderFacts.

Variable PlaceDetails : Type.

Lemma getSearchRequests_cases (kw : jsstring) :
  getSearchRequests kw =
  [ if JsString.truthy (JsString.trim kw)
    then {| keyword :=
              Some (if JsString.includes kw Lit.hotpot
                    then Lit.hotpot ++ Lit.space ++ Lit.canting
                    else JsString.trim kw ++ Lit.space ++ Lit.canting);
            type_ := Lit.restaurant;
            rankby := Some Lit.rating |}
    else {| keyword := None; type_ := Lit.restaurant; rankby := None |} ].
Proof.
  unfold getSearchRequests.
  destruct (JsString.truthy (JsString.trim kw)); [|reflexivity].
  destruct (JsString.includes kw Lit.hotpot); reflexivity.
Qed.

(** C10.  For every keyword the builder returns exactly one request: the
    unkeyworded restaurant request when the trimmed keyword is empty,
    one keyworded request ranked by rating otherwise.  The pipeline
    therefore issues one search, and what it concatenates is the answer
    to that one request. *)
Theorem getSearchRequests_single_request (kw : jsstring) :
  exists r : RequestFragment,
    getSearchRequests kw = [r]
    /\ type_ r = Lit.restaurant
    /\ match JsString.trim kw with
       | [] => keyword r = None /\ rankby r = None
       | _ :: _ =>
           rankby r = Some Lit.rating
           /\ exists k, keyword r = Some k
                        /\ JsString.substring_of (Lit.space ++ Lit.canting) k
       end
    /\ forall (prov : Provider PlaceDetails) (st : ViewState PlaceDetails),
         allResults prov (set_searchKeyword kw st)
         = search prov {| fragment := r;
                          location := currentPosition st;
                          radius := searchRadius st |}.
Proof.
  rewrite getSearchRequests_cases.
  eexists; split; [reflexivity|].
  destruct (JsString.trim kw) as [|c w] eqn:E; simpl.
  - repeat split.
    intros prov st. unfold allResults, searchParams. simpl.
    rewrite getSearchRequests_cases, E. simpl. now rewrite app_nil_r.
  - repeat split.
    + destruct (JsString.includes kw Lit.hotpot).
      * eexists; split; [reflexivity|]. exists Lit.hotpot, []. 
        now rewrite app_nil_r.
      * eexists; split; [reflexivity|]. exists (c :: w), [].
        now rewrite app_nil_r.
    + intros prov st. unfold allResults, searchParams. simpl.
      rewrite getSearchRequests_cases, E. simpl. now rewrite app_nil_r.
Qed.

End BuilderFacts.

(* ================================================================= *)
(** ** PlaceFilter *)

Section FilterFacts.

Variable toLowerCase : jsstring -> jsstring.

Lemma ToBoolean_js_or (a b : jsbool) :
  ToBoolean (js_or a b) = ToBoolean a || ToBoolean b.
Proof. now destruct a as [[|]|], b as [[|]|]. Qed.

Lemma ToBoolean_opt_call {A : Type} (o : option A) (f : A -> bool) :
  ToBoolean (opt_call o f) = true <-> exists x, o = Some x /\ f x = true.
Proof.
  destruct o as [x|]; simpl.
  - destruct (f x) eqn:E; split; try discriminate; eauto.
    intros (y & [= <-] & H). congruence.
  - split; [discriminate|]. now intros (x & H & _).
Qed.

(** C7.  The filter accepts a place exactly when its status is
    OPERATIONAL and either the keyword is empty or the lowercased
    keyword occurs in the lowercased name, in some lowercased category
    tag, or in the lowercased address; every place with another status,
    or none, is rejected whatever the keyword. *)
Theorem isRelevantRestaurant_spec (place : RawPlace) (kw : jsstring) :
  (relevant toLowerCase kw place = true <->
   business_status place = Some OPERATIONAL
   /\ (kw = []
       \/ (exists n, name place = Some n /\ matches toLowerCase kw n)
       \/ (exists ts ty, types place = Some ts /\ In ty ts /\ matches toLowerCase kw ty)
       \/ (exists v, vicinity place = Some v /\ matches toLowerCase kw v)))
  /\ (business_status place <> Some OPERATIONAL ->
      isRelevantRestaurant toLowerCase place kw = Some false).
Proof.
  unfold relevant, isRelevantRestaurant, matches.
  destruct (business_status place) as [[| |]|]; simpl;
    try (split; [split; [discriminate | intros [[=] _]] | reflexivity]).
  split; [|congruence].
  destruct kw as [|c w]; simpl.
  - split; auto.
  - rewrite !ToBoolean_js_or, !orb_true_iff, !ToBoolean_opt_call.
    split.
    + intros [[(n & Hn & H) | (ts & Hts & H)] | (v & Hv & H)]; split; auto.
      * right; left. exists n. split; [assumption|].
        now apply JsStringFacts.includes_spec.
      * right; right; left. apply existsb_exists in H as (ty & Hin & H).
        exists ts, ty. repeat split; try assumption.
        now apply JsStringFacts.includes_spec.
      * right; right; right. exists v. split; [assumption|].
        now apply JsStringFacts.includes_spec.
    + intros [_ [H | [(n & Hn & H) | [(ts & ty & Hts & Hin & H) | (v & Hv & H)]]]].
      * discriminate.
      * left; left. exists n. split; [assumption|].
        now apply JsStringFacts.includes_spec.
      * left; right. exists ts. split; [assumption|].
        apply existsb_exists. exists ty. split; [assumption|].
        now apply JsStringFacts.includes_spec.
      * right. exists v. split; [assumption|].
        now apply JsStringFacts.includes_spec.
Qed.

End FilterFacts.

(* ================================================================= *)
(** ** [Map]: insertion order, last value *)

Module JsMapFacts.
Import JsMap.

Section WithValues.

Variable V : Type.
Implicit Types (m : JsMap.t V) (k : jsstring) (v : V).

Lemma get_set_same m k v : get (set m k v) k = Some v.
Proof.
  induction m as [|[k' v'] m IH]; simpl.
  - now rewrite JsStringFacts.eqb_refl.
  - destruct (JsString.eqb k' k) eqn:E; simpl; now rewrite E.
Qed.

Lemma get_set_other m k v k' : k <> k' -> get (set m k v) k' = get m k'.
Proof.
  intros N. induction m as [|[k0 v0] m IH]; simpl.
  - apply JsStringFacts.eqb_neq in N. now rewrite N.
  - destruct (JsString.eqb k0 k) eqn:E; simpl.
    + apply JsStringFacts.eqb_eq in E. subst k0.
      apply JsStringFacts.eqb_neq in N. now rewrite N.
    + now rewrite IH.
Qed.

Lemma keys_set_known m k v : In k (keys m) -> keys (set m k v) = keys m.
Proof.
  induction m as [|[k0 v0] m IH]; simpl; [tauto|].
  destruct (JsString.eqb k0 k) eqn:E; simpl; [reflexivity|].
  intros [H | H].
  - apply JsStringFacts.eqb_neq in E. contradiction.
  - f_equal. now apply IH.
Qed.

Lemma keys_set_new m k v : ~ In k (keys m) -> keys (set m k v) = keys m ++ [k].
Proof.
  induction m as [|[k0 v0] m IH]; simpl; [reflexivity|].
  intros N. destruct (JsString.eqb k0 k) eqn:E; simpl.
  - apply JsStringFacts.eqb_eq in E. tauto.
  - f_equal. apply IH. tauto.
Qed.

Lemma In_keys_set m k v k' :
  In k' (keys (set m k v)) <-> In k' (keys m) \/ k' = k.
Proof.
  destruct (in_dec (list_eq_dec N.eq_dec) k (keys m)) as [H | H].
  - rewrite keys_set_known by assumption. split; [tauto|].
    intros [K | ->]; assumption.
  - rewrite keys_set_new, in_app_iff by assumption. simpl.
    split; intros [K | K]; auto; try tauto. destruct K; auto. tauto.
Qed.

Lemma NoDup_keys_set m k v : NoDup (keys m) -> NoDup (keys (set m k v)).
Proof.
  intros ND.
  destruct (in_dec (list_eq_dec N.eq_dec) k (keys m)) as [H | H].
  - now rewrite keys_set_known.
  - rewrite keys_set_new by assumption.
    apply NoDup_app; [assumption | repeat constructor; simpl; tauto |].
    intros x Hx [<- | []]. contradiction.
Qed.

Lemma get_app m1 m2 k :
  get (m1 ++ m2) k = match get m1 k with
                     | Some v => Some v
                     | None => get m2 k
                     end.
Proof.
  induction m1 as [|[k0 v0] m1 IH]; simpl; [reflexivity|].
  now destruct (JsString.eqb k0 k).
Qed.

Lemma get_In m k v : get m k = Some v -> In (k, v) m.
Proof.
  induction m as [|[k0 v0] m IH]; simpl; [discriminate|].
  destruct (JsString.eqb k0 k) eqn:E.
  - apply JsStringFacts.eqb_eq in E. intros [= ->]. left. now subst.
  - auto.
Qed.

Lemma get_None m k : get m k = None <-> ~ In k (keys m).
Proof.
  induction m as [|[k0 v0] m IH]; simpl; [tauto|].
  destruct (JsString.eqb k0 k) eqn:E.
  - apply JsStringFacts.eqb_eq in E. split; [discriminate | tauto].
  - apply JsStringFacts.eqb_neq in E. rewrite IH. tauto.
Qed.

Lemma In_get m k v : NoDup (keys m) -> In (k, v) m -> get m k = Some v.
Proof.
  induction m as [|[k0 v0] m IH]; simpl; [tauto|].
  intros ND [H | H]; inversion ND as [|? ? N ND']; subst.
  - injection H as -> ->. now rewrite JsStringFacts.eqb_refl.
  - destruct (JsString.eqb k0 k) eqn:E; [|auto].
    apply JsStringFacts.eqb_eq in E. subst k0.
    exfalso. apply N. unfold keys. apply in_map_iff. now exists (k, v).
Qed.

Lemma NoDup_keys_add entries m :
  NoDup (keys m) -> NoDup (keys (add_entries entries m)).
Proof.
  unfold add_entries.
  revert m. induction entries as [|[k v] es IH]; intros m ND; simpl.
  - assumption.
  - apply IH. now apply NoDup_keys_set.
Qed.

Lemma In_keys_add entries m k :
  In k (keys (add_entries entries m)) <->
  In k (keys m) \/ In k (map fst entries).
Proof.
  unfold add_entries.
  revert m. induction entries as [|[k0 v0] es IH]; intros m; simpl.
  - tauto.
  - rewrite IH, In_keys_set. intuition congruence.
Qed.

(** A key added later wins: the value under [k] is the one of the last
    entry for [k], that is of the first in the reversed list. *)
Lemma get_add entries m k :
  get (add_entries entries m) k =
  match get (rev entries) k with
  | Some v => Some v
  | None => get m k
  end.
Proof.
  unfold add_entries.
  revert m. induction entries as [|[k0 v0] es IH]; intros m; simpl.
  - reflexivity.
  - rewrite IH, get_app. simpl.
    destruct (get (rev es) k); [reflexivity|].
    destruct (JsString.eqb k0 k) eqn:E.
    + apply JsStringFacts.eqb_eq in E. subst. apply get_set_same.
    + apply JsStringFacts.eqb_neq in E. now apply get_set_other.
Qed.

End WithValues.
End JsMapFacts.

(* ================================================================= *)
(** ** Deduplication *)

Section DedupFacts.

Let entry (item : RawPlace) : jsstring * RawPlace := (place_id item, item).

Lemma get_entries (l : list RawPlace) (id : jsstring) :
  JsMap.get (map entry l) id
  = find (fun p => JsString.eqb (place_id p) id) l.
Proof.
  induction l as [|p l IH]; simpl; [reflexivity|].
  now destruct (JsString.eqb (place_id p) id).
Qed.

Lemma entries_keyed (all : list RawPlace) (k : jsstring) (p : RawPlace) :
  In (k, p) (JsMap.of_entries (map entry all)) -> k = place_id p.
Proof.
  intros H.
  apply JsMapFacts.In_get in H;
    [|apply JsMapFacts.NoDup_keys_add; constructor].
  unfold JsMap.of_entries in H.
  rewrite JsMapFacts.get_add, <- map_rev, get_entries in H. simpl in H.
  destruct (find _ (rev all)) as [q|] eqn:F; [|discriminate].
  injection H as ->. apply find_some in F as [_ F].
  now apply JsStringFacts.eqb_eq in F.
Qed.

Lemma dedup_ids (all : list RawPlace) :
  map place_id (dedup all) = JsMap.keys (JsMap.of_entries (map entry all)).
Proof.
  unfold dedup, JsMap.values, JsMap.keys. rewrite map_map.
  apply map_ext_in. intros [k p] H. simpl.
  symmetry. now apply (@entries_keyed all).
Qed.

Lemma NoDup_dedup_ids (all : list RawPlace) :
  NoDup (map place_id (dedup all)).
Proof.
  rewrite dedup_ids. apply JsMapFacts.NoDup_keys_add. constructor.
Qed.

Lemma In_dedup_ids (all : list RawPlace) (id : jsstring) :
  In id (map place_id (dedup all)) <-> In id (map place_id all).
Proof.
  rewrite dedup_ids. unfold JsMap.of_entries.
  rewrite JsMapFacts.In_keys_add, map_map. simpl. tauto.
Qed.

Lemma In_dedup (all : list RawPlace) (p : RawPlace) :
  In p (dedup all) <-> lastSeen (place_id p) all = Some p.
Proof.
  unfold lastSeen. rewrite <- get_entries, map_rev.
  assert (G : forall k,
             JsMap.get (JsMap.of_entries (map entry all)) k
             = JsMap.get (rev (map entry all)) k).
  { intros k. unfold JsMap.of_entries.
    rewrite JsMapFacts.get_add. simpl.
    now destruct (JsMap.get (rev (map entry all)) k). }
  rewrite <- G. unfold dedup, JsMap.values. split.
  - intros H. apply in_map_iff in H as ([k q] & <- & H). simpl.
    pose proof (@entries_keyed all k q H) as ->.
    apply JsMapFacts.In_get; [|assumption].
    apply JsMapFacts.NoDup_keys_add. constructor.
  - intros H. apply JsMapFacts.get_In in H.
    apply in_map_iff. now exists (place_id p, p).
Qed.

(** C3.  Whatever the raw places, duplicates included, the dedup step
    keeps exactly one entry for each place id that occurs, and the entry
    kept for an id is the last record carrying it in concatenation
    order. *)
Theorem dedup_one_per_id_last_wins (all : list RawPlace) :
  NoDup (map place_id (dedup all))
  /\ (forall id, In id (map place_id (dedup all)) <-> In id (map place_id all))
  /\ (forall p, In p (dedup all) <-> lastSeen (place_id p) all = Some p).
Proof.
  split; [apply NoDup_dedup_ids|].
  split; [apply In_dedup_ids | apply In_dedup].
Qed.

End DedupFacts.

(* ================================================================= *)
(** ** [slice] and [sort] *)

Section ArrayFacts.

Variable A : Type.

Lemma slice0_nonneg (a : list A) (e : Z) :
  (0 <= e)%Z -> slice0 a e = firstn (Z.to_nat e) a.
Proof.
  intros H. unfold slice0.
  destruct (Z.ltb_spec e 0); [lia|].
  destruct (Z.le_ge_cases e (Z.of_nat (List.length a))) as [L | L].
  - now rewrite Z.min_l.
  - rewrite Z.min_r, Nat2Z.id by assumption.
    rewrite firstn_all. symmetry. apply firstn_all2. lia.
Qed.

Lemma firstn_incl (n : nat) (a : list A) : incl (firstn n a) a.
Proof.
  intros x H. rewrite <- (firstn_skipn n a). apply in_or_app. now left.
Qed.

Lemma slice0_incl (a : list A) (e : Z) : incl (slice0 a e) a.
Proof. unfold slice0. apply firstn_incl.
Qed.

Lemma slice0_length_le (a : list A) (e : Z) :
  (0 <= e <= Z.of_nat (List.length a))%Z ->
  Z.of_nat (List.length (slice0 a e)) = e.
Proof.
  intros H. rewrite slice0_nonneg by lia. rewrite length_firstn. lia.
Qed.

Lemma slice0_all (a : list A) (e : Z) :
  (Z.of_nat (List.length a) <= e)%Z -> slice0 a e = a.
Proof.
  intros H. rewrite slice0_nonneg by lia. apply firstn_all2. lia.
Qed.

Lemma ceil_half_eq (n : nat) : ceil_half n = ((Z.of_nat n + 1) / 2)%Z.
Proof.
  unfold ceil_half, Qceiling, Qfloor. simpl.
  rewrite Z.mul_1_r.
  replace (- Z.of_nat n)%Z with (- (Z.of_nat n))%Z by reflexivity.
  pose proof (Z.div_mod (Z.of_nat n + 1) 2 ltac:(lia)) as D1.
  pose proof (Z.mod_pos_bound (Z.of_nat n + 1) 2 ltac:(lia)) as B1.
  pose proof (Z.div_mod (- Z.of_nat n) 2 ltac:(lia)) as D2.
  pose proof (Z.mod_pos_bound (- Z.of_nat n) 2 ltac:(lia)) as B2.
  lia.
Qed.

Section Sort.

Variable S : Type.
Variable comparefn : A -> A -> State S jsnum.

Lemma insert_perm (sorted_rev : list A) (x : A) (s : S) :
  Permutation (fst (insert comparefn sorted_rev x s)) (x :: sorted_rev).
Proof.
  revert s. induction sorted_rev as [|tmp rest IH]; intros s; simpl.
  - reflexivity.
  - unfold bind. destruct (comparefn tmp x s) as [order s1].
    destruct (js_pos order); simpl; [|reflexivity].
    specialize (IH s1).
    destruct (insert comparefn rest x s1) as [r s2]. simpl in *.
    rewrite IH. apply perm_swap.
Qed.

Lemma sort_loop_perm (sorted_rev todo : list A) (s : S) :
  Permutation (fst (sort_loop comparefn sorted_rev todo s))
              (sorted_rev ++ todo).
Proof.
  revert sorted_rev s.
  induction todo as [|x todo IH]; intros sorted_rev s; simpl.
  - rewrite app_nil_r. symmetry. apply Permutation_rev.
  - unfold bind. pose proof (insert_perm sorted_rev x s) as P.
    destruct (insert comparefn sorted_rev x s) as [p s1]. simpl in P.
    rewrite IH, P. apply Permutation_middle.
Qed.

(** Whatever the comparator answers, [sort] only rearranges. *)
Lemma Array_sort_perm (a : list A) (s : S) :
  Permutation (fst (Array_sort comparefn a s)) a.
Proof. apply (sort_loop_perm [] a s). Qed.

End Sort.
End ArrayFacts.

(** A negative end index counts from the end of the array, which is why
    the size of a selection is stated for counts that are not
    negative. *)
Lemma slice0_negative_end : slice0 [1; 2; 3]%nat (-1) = [1; 2]%nat.
Proof. reflexivity. Qed.

(* ================================================================= *)
(** ** Ranking by rating *)

Section RankingFacts.

Lemma js_pos_sub (x t : Q) :
  js_pos (js_sub (Some x) (Some t)) = true <-> t < x.
Proof.
  simpl. rewrite negb_true_iff.
  destruct (Qle_bool (x - t) 0) eqn:E.
  - apply Qle_bool_iff in E. split; [discriminate | intros; lra].
  - split; [intros _ | reflexivity].
    destruct (Qlt_le_dec t x) as [L | L]; [assumption|].
    assert (K : x - t <= 0) by lra.
    apply Qle_bool_iff in K. congruence.
Qed.

Lemma qualityFloor_true (p : RawPlace) :
  qualityFloor p = true <-> exists r, rating p = Some r /\ 3.5 <= r.
Proof.
  unfold qualityFloor, js_ge. destruct (rating p) as [r|].
  - rewrite Qle_bool_iff. split; [eauto|]. now intros (r' & [= <-] & H).
  - split; [discriminate|]. now intros (r & H & _).
Qed.

Lemma qualityFloor_false (p : RawPlace) :
  qualityFloor p = false <-> belowFloor p.
Proof.
  unfold qualityFloor, belowFloor, js_ge. destruct (rating p) as [r|].
  - destruct (Qle_bool 3.5 r) eqn:E.
    + apply Qle_bool_iff in E. split; [discriminate | intros; lra].
    + split; [intros _ | reflexivity].
      destruct (Qlt_le_dec r 3.5) as [L | L]; [assumption|].
      apply Qle_bool_iff in L. congruence.
  - tauto.
Qed.

Lemma ratingGe_trans (a b c : RawPlace) :
  ratingGe a b -> ratingGe b c -> ratingGe a c.
Proof.
  unfold ratingGe.
  destruct (rating a), (rating b), (rating c); try tauto. intros; lra.
Qed.

(** The sorted prefix is kept in reverse, so it ascends. *)
Let asc (a b : RawPlace) : Prop := ratingGe b a.

Lemma insert_byRating_sorted (sorted_rev : list RawPlace) (x : RawPlace) :
  rated x -> Forall rated sorted_rev -> StronglySorted asc sorted_rev ->
  StronglySorted asc (fst (insert byRating sorted_rev x tt)).
Proof.
  intros Rx. induction sorted_rev as [|tmp rest IH]; intros Rs Hs; simpl.
  - repeat constructor.
  - apply StronglySorted_inv in Hs as [Hs Ht].
    inversion Rs as [|? ? Rt Rr]; subst.
    unfold bind.
    change (byRating tmp x tt) with (js_sub (rating x) (rating tmp), tt).
    unfold rated in Rx, Rt.
    destruct (rating x) as [rx|] eqn:Ex; [|congruence].
    destruct (rating tmp) as [rt|] eqn:Et; [|congruence].
    destruct (js_pos (js_sub (Some rx) (Some rt))) eqn:E.
    + apply js_pos_sub in E.
      specialize (IH Rr Hs).
      pose proof (insert_perm byRating rest x tt) as P.
      destruct (insert byRating rest x tt) as [r u]. simpl in *.
      constructor; [assumption|].
      apply (Permutation_Forall (Permutation_sym P)).
      constructor; [|assumption].
      unfold asc, ratingGe. rewrite Ex, Et. lra.
    + assert (L : rx <= rt).
      { destruct (Qlt_le_dec rt rx) as [K | K]; [|assumption].
        apply js_pos_sub in K. congruence. }
      simpl. assert (X : asc x tmp).
      { unfold asc, ratingGe. rewrite Ex, Et. exact L. }
      constructor; [constructor; assumption|].
      constructor; [assumption|].
      eapply Forall_impl; [|exact Ht].
      intros q Hq. unfold asc in *. eapply ratingGe_trans; eassumption.
Qed.

Lemma StronglySorted_snoc {A : Type} (R : A -> A -> Prop)
    (l : list A) (x : A) :
  StronglySorted R l -> Forall (fun y => R y x) l ->
  StronglySorted R (l ++ [x]).
Proof.
  induction l as [|a l IH]; intros Hs Hx; simpl.
  - repeat constructor.
  - apply StronglySorted_inv in Hs as [Hs Ha].
    inversion Hx; subst.
    constructor; [auto|]. apply Forall_app. split; [assumption|].
    now constructor.
Qed.

Lemma StronglySorted_rev {A : Type} (R : A -> A -> Prop) (l : list A) :
  StronglySorted R l -> StronglySorted (fun a b => R b a) (rev l).
Proof.
  induction l as [|a l IH]; intros Hs; simpl.
  - constructor.
  - apply StronglySorted_inv in Hs as [Hs Ha].
    apply StronglySorted_snoc; [auto|].
    apply Forall_rev. exact Ha.
Qed.

Lemma StronglySorted_app_inv {A : Type} (R : A -> A -> Prop)
    (l1 l2 : list A) :
  StronglySorted R (l1 ++ l2) ->
  forall a b, In a l1 -> In b l2 -> R a b.
Proof.
  induction l1 as [|x l1 IH]; simpl; intros Hs a b Ha Hb; [tauto|].
  apply StronglySorted_inv in Hs as [Hs Hx].
  destruct Ha as [<- | Ha].
  - rewrite Forall_forall in Hx. apply Hx. apply in_or_app. now right.
  - now apply IH.
Qed.

Lemma sort_loop_byRating_sorted (sorted_rev todo : list RawPlace) :
  Forall rated sorted_rev -> Forall rated todo ->
  StronglySorted asc sorted_rev ->
  StronglySorted ratingGe (fst (sort_loop byRating sorted_rev todo tt)).
Proof.
  revert sorted_rev.
  induction todo as [|x todo IH]; intros sorted_rev Rs Rt Hs; simpl.
  - apply (StronglySorted_rev Hs).
  - inversion Rt as [|? ? Rx Rt']; subst. unfold bind.
    pose proof (insert_byRating_sorted Rx Rs Hs) as Hi.
    pose proof (insert_perm byRating sorted_rev x tt) as P.
    destruct (insert byRating sorted_rev x tt) as [p []]. simpl in *.
    apply IH; try assumption.
    apply (Permutation_Forall (Permutation_sym P)). now constructor.
Qed.

(** The candidates above the floor, best rated first. *)
Lemma sortedResults_sorted (unique : list RawPlace) :
  StronglySorted ratingGe (sortedResults unique).
Proof.
  unfold sortedResults, Array_sort.
  apply sort_loop_byRating_sorted; try constructor.
  apply Forall_forall. intros p H. apply filter_In in H as [_ H].
  apply qualityFloor_true in H as (r & H & _). unfold rated. congruence.
Qed.

Lemma sortedResults_perm (unique : list RawPlace) :
  Permutation (sortedResults unique) (filter qualityFloor unique).
Proof. apply Array_sort_perm. Qed.

Lemma topHalf_firstn (unique : list RawPlace) :
  topHalf unique
  = firstn (Nat.div2 (Datatypes.S (List.length (sortedResults unique))))
           (sortedResults unique).
Proof.
  unfold topHalf. rewrite ceil_half_eq.
  assert (H : forall n : nat,
             ((Z.of_nat n + 1) / 2)%Z = Z.of_nat (Nat.div2 (Datatypes.S n))).
  { intros n. rewrite Nat.div2_div, Nat2Z.inj_div, Nat2Z.inj_succ.
    reflexivity. }
  cbv zeta. rewrite H. rewrite slice0_nonneg by apply Nat2Z.is_nonneg.
  now rewrite Nat2Z.id.
Qed.

(** X5.  The pool is the better half: its size is the ceiling of half
    the number of candidates above the floor, and none of those left out
    is rated higher than one taken. *)
Lemma topHalf_is_top (unique : list RawPlace) :
  exists rest,
    sortedResults unique = topHalf unique ++ rest
    /\ (Z.of_nat (List.length (topHalf unique))
        = (Z.of_nat (List.length (sortedResults unique)) + 1) / 2)%Z
    /\ forall p q, In p (topHalf unique) -> In q rest -> ratingGe p q.
Proof.
  exists (skipn (Nat.div2 (Datatypes.S (List.length (sortedResults unique))))
                (sortedResults unique)).
  rewrite topHalf_firstn. split; [now rewrite firstn_skipn|]. split.
  - rewrite length_firstn.
    set (n := List.length (sortedResults unique)).
    assert (K : (Nat.div2 (Datatypes.S n) <= n)%nat).
    { rewrite Nat.div2_div.
      destruct n as [|n]; [reflexivity|].
      apply Nat.Div0.div_le_upper_bound. lia. }
    rewrite Nat.min_l by exact K.
    rewrite Nat.div2_div, Nat2Z.inj_div, Nat2Z.inj_succ. reflexivity.
  - apply StronglySorted_app_inv. rewrite firstn_skipn.
    apply sortedResults_sorted.
Qed.

End RankingFacts.

(* ================================================================= *)
(** ** The pipeline *)

Section PipelineFacts.

Variable toLowerCase : jsstring -> jsstring.
Variable PlaceDetails : Type.
Variable fitBounds : list Coordinate -> Coordinate * Q.

Implicit Types (prov : Provider PlaceDetails) (st : ViewState PlaceDetails).
Implicit Types (rnd : RandomSource) (p : RawPlace).

Lemma updateCurrentLocationMarker_selection st :
  selectedRestaurants (updateCurrentLocationMarker st)
  = selectedRestaurants st.
Proof.
  unfold updateCurrentLocationMarker.
  destruct (currentLocationMarker st); simpl;
    destruct (currentPosition st); reflexivity.
Qed.

Lemma updateMapMarkers_selection st :
  selectedRestaurants (fst (updateMapMarkers fitBounds st))
  = selectedRestaurants st.
Proof.
  unfold updateMapMarkers.
  destruct (addRestaurantMarkers (selectedRestaurants st) []) as [ms []].
  - pose proof (updateCurrentLocationMarker_selection (set_markers ms st)) as E.
    destruct (selectedRestaurants (updateCurrentLocationMarker _)) eqn:F.
    + simpl. now rewrite F.
    + destruct (fitBounds _). simpl. now rewrite F.
  - reflexivity.
Qed.

Lemma map_place_enrich prov st (l : list RawPlace) :
  map (@place PlaceDetails) (map (enrich prov st) l) = l.
Proof. rewrite map_map. simpl. apply map_id. Qed.

(** The three ways a run ends without touching the state, and the one
    way it replaces the selection. *)
Lemma getRandomRestaurants_cases prov rnd st :
  let result := getRandomRestaurants toLowerCase fitBounds prov rnd st in
  (fst result = st
   /\ (snd result = ServiceNotInitialized /\ service st = false
       \/ snd result = WaitingForLocation /\ isLocationReady st = false
       \/ snd result = NoRestaurantsFound
          /\ uniqueResults toLowerCase prov st = []))
  \/ (uniqueResults toLowerCase prov st <> []
      /\ map (@place _) (selectedRestaurants (fst result))
         = selected rnd (numberOfRestaurants st)
                    (uniqueResults toLowerCase prov st)
      /\ (snd result = Selected \/ snd result = ErrorCaught)).
Proof.
  unfold getRandomRestaurants.
  destruct (service st); simpl; [|now left; auto].
  destruct (isLocationReady st); simpl; [|now left; auto].
  destruct (uniqueResults toLowerCase prov st) as [|u us] eqn:U;
    [now left; auto|].
  right. split; [discriminate|].
  set (chosen := selected rnd (numberOfRestaurants st) (u :: us)).
  set (st1 := set_selectedRestaurants (map (enrich prov st) chosen) st).
  pose proof (updateMapMarkers_selection st1) as E.
  destruct (updateMapMarkers fitBounds st1) as [st2 []]; simpl in E.
  - destruct (selectedRestaurants st2) eqn:F; simpl.
    + rewrite F, E. simpl. split; [apply map_place_enrich | now left].
    + rewrite F, E. simpl. split; [apply map_place_enrich | now left].
  - simpl. rewrite E. simpl. split; [apply map_place_enrich | now right].
Qed.

(** C4.  When no candidate is left after deduplication and filtering,
    the run ends there: the state, and with it the selection on display,
    is what it was, and nothing was thrown. *)
Theorem empty_candidates_keep_selection prov rnd st :
  uniqueResults toLowerCase prov st = [] ->
  let result := getRandomRestaurants toLowerCase fitBounds prov rnd st in
  fst result = st
  /\ selectedRestaurants (fst result) = selectedRestaurants st
  /\ markers (fst result) = markers st
  /\ snd result <> Selected
  /\ snd result <> ErrorCaught.
Proof.
  intros U result.
  destruct (getRandomRestaurants_cases prov rnd st) as [[E O] | [N _]];
    [|contradiction].
  fold result in E, O. rewrite E.
  repeat split; try reflexivity;
    destruct O as [[O _] | [[O _] | [O _]]]; rewrite O; discriminate.
Qed.

Lemma addRestaurantMarkers_normal
    (rs : list (SelectedRestaurant PlaceDetails)) (ms : list Marker) :
  Forall (fun r => located (place r)) rs ->
  snd (addRestaurantMarkers rs ms) = Normal.
Proof.
  revert ms. induction rs as [|r rs IH]; intros ms H; simpl; [reflexivity|].
  inversion H as [|? ? Hr Hrs]; subst.
  destruct (negb (is_operational (place r))); [now apply IH|].
  unfold located in Hr. destruct (geometry (place r)); [now apply IH|].
  congruence.
Qed.

Lemma updateMapMarkers_normal st :
  Forall (fun r => located (place r)) (selectedRestaurants st) ->
  snd (updateMapMarkers fitBounds st) = Normal.
Proof.
  intros H. unfold updateMapMarkers.
  pose proof (addRestaurantMarkers_normal [] H) as E.
  destruct (addRestaurantMarkers (selectedRestaurants st) []) as [ms c].
  simpl in E. subst c.
  destruct (selectedRestaurants (updateCurrentLocationMarker _));
    [reflexivity|].
  now destruct (fitBounds _).
Qed.

Lemma selected_incl rnd (count : Z) (unique : list RawPlace) :
  incl (selected rnd count unique) (topHalf unique).
Proof.
  unfold selected, shuffled. intros p H. apply slice0_incl in H.
  eapply Permutation_in; [apply Array_sort_perm | exact H].
Qed.

Lemma shuffled_perm rnd (pool : list RawPlace) :
  Permutation (shuffled rnd pool) pool.
Proof. apply Array_sort_perm. Qed.

(** A run that reaches the selection step ends normally when every
    place of the pool has a location. *)
Lemma getRandomRestaurants_selected prov rnd st :
  uniqueResults toLowerCase prov st <> [] ->
  service st = true ->
  isLocationReady st = true ->
  Forall located (topHalf (uniqueResults toLowerCase prov st)) ->
  snd (getRandomRestaurants toLowerCase fitBounds prov rnd st) = Selected.
Proof.
  intros U Sv Rd L. unfold getRandomRestaurants. rewrite Sv, Rd. simpl.
  destruct (uniqueResults toLowerCase prov st) as [|u us]; [contradiction|].
  set (chosen := selected rnd (numberOfRestaurants st) (u :: us)).
  set (st1 := set_selectedRestaurants (map (enrich prov st) chosen) st).
  assert (N : snd (updateMapMarkers fitBounds st1) = Normal).
  { apply updateMapMarkers_normal. simpl.
    apply Forall_forall. intros r Hr.
    apply in_map_iff in Hr as (q & <- & Hq). simpl.
    rewrite Forall_forall in L. apply L.
    now apply (selected_incl rnd (numberOfRestaurants st)). }
  destruct (updateMapMarkers fitBounds st1) as [st2 c]. simpl in N. subst c.
  now destruct (selectedRestaurants st2).
Qed.

(** The empty outcome that does replace the selection: candidates that
    pass the filter and all fall under the quality floor.  The run goes
    on past the check for no results and puts an empty selection in
    place of the three restaurants on display. *)
Lemma all_under_floor_clears_selection :
  List.length (selectedRestaurants Scenario.shown) = 3%nat
  /\ uniqueResults Scenario.toLowerCase Scenario.lowProvider Scenario.shown
     <> []
  /\ getRandomRestaurants Scenario.toLowerCase Scenario.fitBounds
       Scenario.lowProvider Scenario.allUnder Scenario.shown
     = (set_viewport defaultPosition (mapZoom Scenario.shown)
          (set_locationMarker
             (Some {| loc_position := defaultPosition;
                      loc_on_map := true;
                      loc_infoWindow_open := true |})
             (set_markers []
                (set_selectedRestaurants [] Scenario.shown))),
        Selected).
Proof.
  split; [vm_compute; reflexivity|].
  split; [vm_compute; discriminate|].
  vm_compute. reflexivity.
Qed.

(** On blur the count is brought into the range 1 to 10. *)
Lemma checkNumberOfRestaurants_range st :
  (1 <= numberOfRestaurants (checkNumberOfRestaurants st) <= 10)%Z.
Proof.
  unfold checkNumberOfRestaurants.
  destruct (Z.ltb_spec (numberOfRestaurants st) 1); simpl; [lia|].
  destruct (Z.ltb_spec 10 (numberOfRestaurants st)); simpl; lia.
Qed.

(** C5.  When the run reaches the selection step with a pool of [N]
    places and a requested count [K] (a count, so not negative): for
    [K <= N] the new selection has exactly [K] entries, all from the
    pool; for [N < K] it is the whole pool, rearranged, with nothing
    added.  The short pool raises no error: the run replaces the
    selection, and it ends normally when every place of the pool has a
    location for its marker. *)
Theorem selection_size prov rnd st :
  uniqueResults toLowerCase prov st <> [] ->
  service st = true ->
  isLocationReady st = true ->
  (0 <= numberOfRestaurants st)%Z ->
  let pool := topHalf (uniqueResults toLowerCase prov st) in
  let result := getRandomRestaurants toLowerCase fitBounds prov rnd st in
  let chosen := map (@place _) (selectedRestaurants (fst result)) in
  incl chosen pool
  /\ Z.of_nat (List.length chosen)
     = Z.min (numberOfRestaurants st) (Z.of_nat (List.length pool))
  /\ ((Z.of_nat (List.length pool) < numberOfRestaurants st)%Z ->
      Permutation chosen pool)
  /\ snd result <> NoRestaurantsFound
  /\ (Forall located pool -> snd result = Selected).
Proof.
  intros U Sv Rd K pool result chosen.
  destruct (getRandomRestaurants_cases prov rnd st) as [[_ O] | (_ & E & O)].
  - exfalso. destruct O as [[_ O] | [[_ O] | [_ O]]]; congruence.
  - fold result in E, O. fold chosen in E. rewrite E.
    pose proof (shuffled_perm rnd pool) as P.
    pose proof (Permutation_length P) as L.
    unfold selected. fold pool.
    repeat split.
    + apply selected_incl.
    + rewrite slice0_nonneg by assumption. rewrite length_firstn. lia.
    + intros H. rewrite slice0_all by lia. exact P.
    + destruct O as [O | O]; rewrite O; discriminate.
    + now apply getRandomRestaurants_selected.
Qed.

(** C6.  A place without a rating, or rated under 3.5, does not pass the
    quality floor, and no run brings it into the selection: if it is not
    on display before the run it is not on display after it. *)
Theorem unrated_or_low_never_selected prov rnd st p :
  belowFloor p ->
  ~ In p (map (@place _) (selectedRestaurants st)) ->
  qualityFloor p = false
  /\ ~ In p (sortedResults (uniqueResults toLowerCase prov st))
  /\ ~ In p (map (@place _)
               (selectedRestaurants
                  (fst (getRandomRestaurants toLowerCase fitBounds prov rnd st)))).
Proof.
  intros B N. apply qualityFloor_false in B.
  assert (S : ~ In p (sortedResults (uniqueResults toLowerCase prov st))).
  { intros H.
    apply (Permutation_in _ (sortedResults_perm _)) in H.
    apply filter_In in H as [_ H]. congruence. }
  repeat split; try assumption.
  destruct (getRandomRestaurants_cases prov rnd st) as [[E _] | (_ & E & _)].
  - now rewrite E.
  - rewrite E. intros H. apply selected_incl in H.
    unfold topHalf in H. apply slice0_incl in H. contradiction.
Qed.

End PipelineFacts.

(* ================================================================= *)
(** ** The hot-pot scenario *)

Section ScenarioFacts.

Import Scenario.

Lemma scenario_unique :
  uniqueResults toLowerCase provider state = places.
Proof. vm_compute. reflexivity. Qed.

Lemma scenario_sorted :
  sortedResults places = [p1; p2; p3; p4; p5; p6; p7].
Proof. vm_compute. reflexivity. Qed.

Lemma scenario_pool : topHalf places = [p1; p2; p3; p4].
Proof. vm_compute. reflexivity. Qed.

Lemma scenario_pool_NoDup : NoDup [p1; p2; p3; p4].
Proof.
  apply (NoDup_map_inv place_id).
  repeat constructor; simpl; intuition discriminate.
Qed.

(** C1, as stated, fails.  Seven of the ten places pass the floor, the
    one rated 3.6 among them, and the pool holds the four best, not the
    three best.  With three to take out of four the selection is not
    the same for every rearrangement of the pool: it is made of the
    three best only when the shuffle leaves the place rated 4.2 last. *)
Lemma scenario_pool_holds_four :
  map rating (filter qualityFloor places)
  = [Some 5; Some 4.8; Some 4.5; Some 4.2; Some 4.0; Some 3.8; Some 3.6]
  /\ topHalf (uniqueResults toLowerCase provider state) = [p1; p2; p3; p4]
  /\ ~ (forall s, Permutation [p1; p2; p3; p4] s ->
                  Permutation (slice0 s (numberOfRestaurants state))
                              [p1; p2; p3]).
Proof.
  split; [vm_compute; reflexivity|].
  split; [vm_compute; reflexivity|].
  intros H.
  assert (P : Permutation [p1; p2; p3; p4] [p4; p1; p2; p3]).
  { apply Permutation_sym.
    apply (Permutation_cons_append [p1; p2; p3] p4). }
  apply H in P.
  assert (I : In p4 [p1; p2; p3]).
  { apply (Permutation_in _ P). vm_compute. left. reflexivity. }
  simpl in I. destruct I as [I | [I | [I | []]]]; discriminate I.
Qed.

(** C1, amended.  In the scenario the floor excludes exactly the three
    places rated 3.4, 3.2 and 3.0; the seven others are ranked, the four
    best form the pool, and every run, whatever the random source,
    selects three distinct places of those four, the first three of a
    rearrangement of the pool, and ends normally. *)
Theorem scenario_selects_three_of_top_four (rnd : RandomSource) :
  let unique := uniqueResults toLowerCase provider state in
  let chosen := map (@place _) (selectedRestaurants (fst (run rnd))) in
  filter (fun p => negb (qualityFloor p)) unique = [p8; p9; p10]
  /\ sortedResults unique = [p1; p2; p3; p4; p5; p6; p7]
  /\ topHalf unique = [p1; p2; p3; p4]
  /\ List.length chosen = 3%nat
  /\ NoDup chosen
  /\ incl chosen [p1; p2; p3; p4]
  /\ snd (run rnd) = Selected
  /\ exists s, Permutation [p1; p2; p3; p4] s /\ chosen = firstn 3 s.
Proof.
  intros unique chosen.
  assert (U : unique = places) by apply scenario_unique.
  split; [rewrite U; vm_compute; reflexivity|].
  split; [rewrite U; apply scenario_sorted|].
  split; [rewrite U; apply scenario_pool|].
  assert (N : uniqueResults toLowerCase provider state <> []).
  { rewrite scenario_unique. discriminate. }
  destruct (getRandomRestaurants_cases toLowerCase fitBounds provider rnd state)
    as [[_ O] | (_ & E & O)].
  - exfalso. destruct O as [[_ O] | [[_ O] | [_ O]]];
      [discriminate O | discriminate O | contradiction].
  - fold (run rnd) in E, O. fold chosen in E.
    rewrite scenario_unique in E.
    change (numberOfRestaurants state) with 3%Z in E.
    unfold selected in E. rewrite scenario_pool in E.
    rewrite slice0_nonneg in E by lia.
    pose proof (shuffled_perm rnd [p1; p2; p3; p4]) as P.
    rewrite E. split; [|split; [|split; [|split]]].
    + rewrite length_firstn, (Permutation_length P). reflexivity.
    + rewrite <- (firstn_skipn (Z.to_nat 3) (shuffled rnd [p1; p2; p3; p4]))
        in P.
      apply (NoDup_app_remove_r _ (skipn (Z.to_nat 3)
                                     (shuffled rnd [p1; p2; p3; p4]))).
      apply (Permutation_NoDup (Permutation_sym P)), scenario_pool_NoDup.
    + intros p H. apply firstn_incl in H.
      apply (Permutation_in _ P H).
    + apply getRandomRestaurants_selected; try assumption; try reflexivity.
      rewrite scenario_unique, scenario_pool.
      repeat constructor; discriminate.
    + exists (shuffled rnd [p1; p2; p3; p4]).
      split; [apply Permutation_sym, P | reflexivity].
Qed.

End ScenarioFacts.

(* ================================================================= *)
(** ** Coin flips cannot shuffle three places evenly *)

Section CoinEngineFacts.

Local Open Scope nat_scope.

Variable A : Type.
Variable A_eq_dec : forall x y : A, {x = y} + {x <> y}.

Lemma patterns_length (d : nat) : List.length (patterns d) = 2 ^ d.
Proof.
  induction d as [|d IH]; simpl; [reflexivity|].
  rewrite length_app, !length_map, IH. lia.
Qed.

Lemma indicator_sum_absent (a : A) (orders : list A) :
  ~ In a orders ->
  list_sum (map (fun o => if A_eq_dec a o then 1 else 0) orders) = 0.
Proof.
  induction orders as [|o orders IH]; simpl; [reflexivity|].
  intros N. destruct (A_eq_dec a o) as [-> | _]; [tauto|].
  apply IH. tauto.
Qed.

Lemma indicator_sum_present (a : A) (orders : list A) :
  NoDup orders -> In a orders ->
  list_sum (map (fun o => if A_eq_dec a o then 1 else 0) orders) = 1.
Proof.
  induction orders as [|o orders IH]; simpl; [tauto|].
  intros ND H. inversion ND as [|? ? N ND']; subst.
  destruct (A_eq_dec a o) as [-> | Ne].
  - now rewrite indicator_sum_absent.
  - destruct H as [-> | H]; [contradiction|]. now apply IH.
Qed.

(** Outcomes that are told apart split the inputs among them. *)
Lemma classes_partition {X : Type} (f : X -> A) (l : list X)
    (orders : list A) :
  NoDup orders ->
  (forall x, In x l -> In (f x) orders) ->
  list_sum
    (map (fun o => List.length
                     (filter (fun x => if A_eq_dec (f x) o then true else false)
                             l))
         orders)
  = List.length l.
Proof.
  intros ND. induction l as [|x l IH]; intros H; simpl.
  - clear. induction orders as [|o orders IHo]; simpl; auto.
  - assert (G : forall os : list A,
               list_sum
                 (map (fun o =>
                         List.length
                           (if if A_eq_dec (f x) o then true else false
                            then x :: filter (fun x0 => if A_eq_dec (f x0) o
                                                        then true else false) l
                            else filter (fun x0 => if A_eq_dec (f x0) o
                                                   then true else false) l))
                      os)
               = list_sum (map (fun o => if A_eq_dec (f x) o then 1 else 0) os)
                 + list_sum
                     (map (fun o =>
                             List.length
                               (filter (fun x0 => if A_eq_dec (f x0) o
                                                  then true else false) l))
                          os)).
    { induction os as [|o os IHo]; simpl; [reflexivity|].
      rewrite IHo. destruct (A_eq_dec (f x) o); simpl; lia. }
    rewrite G, IH by (intros y Hy; apply H; now right).
    rewrite (@indicator_sum_present (f x) orders ND
               (H x (or_introl eq_refl))).
    reflexivity.
Qed.

Lemma three_not_divide_pow2 (d : nat) : ~ Nat.divide 3 (2 ^ d).
Proof.
  induction d as [|d IH]; simpl.
  - intros [k H]. lia.
  - intros H. apply IH.
    replace (2 ^ d + (2 ^ d + 0)) with (2 * 2 ^ d) in H by lia.
    now apply Nat.gauss in H.
Qed.

Lemma constant_sum (w : nat) (g : A -> nat) (orders : list A) :
  (forall o, In o orders -> g o = w) ->
  list_sum (map g orders) = List.length orders * w.
Proof.
  induction orders as [|o orders IH]; intros H; simpl; [reflexivity|].
  rewrite IH by (intros; apply H; now right).
  rewrite (H o) by now left. reflexivity.
Qed.

(** The model of [sort] is one engine among others, but the bias of the
    shuffle is not its doing: no procedure that reads [d] fair coin
    flips and answers with one of the orders of a pool can give each
    order the same share of the [2 ^ d] sequences, as soon as the number
    of orders is a multiple of three.  Three places have six orders. *)
Lemma coin_engine_not_uniform (engine : list bool -> A) (d : nat)
    (orders : list A) :
  NoDup orders ->
  Nat.divide 3 (List.length orders) ->
  (forall bits, In (engine bits) orders) ->
  ~ (forall o1 o2, In o1 orders -> In o2 orders ->
                   tally A_eq_dec engine d o1 = tally A_eq_dec engine d o2).
Proof.
  intros ND D Hin U.
  pose proof (classes_partition engine (patterns d) ND
                (fun bits _ => Hin bits)) as P.
  rewrite patterns_length in P.
  destruct orders as [|o0 orders'] eqn:E.
  - exact (Hin []).
  - rewrite <- E in *.
    assert (C : forall o, In o orders ->
                          tally A_eq_dec engine d o
                          = tally A_eq_dec engine d o0).
    { intros o Ho. apply U; [assumption|]. rewrite E. now left. }
    unfold tally in C at 1.
    rewrite (@constant_sum _ _ orders C) in P.
    apply (@three_not_divide_pow2 d). rewrite <- P.
    now apply Nat.divide_mul_l.
Qed.

End CoinEngineFacts.

(* ================================================================= *)
(** ** MapSync: info windows *)

Section MarkerFacts.

Variable PlaceDetails : Type.
Variable fitBounds : list Coordinate -> Coordinate * Q.

Implicit Types (st : ViewState PlaceDetails) (ms : list Marker).

Lemma addRestaurantMarkers_open
    (rs : list (SelectedRestaurant PlaceDetails)) ms :
  Forall (fun m => infoWindow_open m = true) ms ->
  Forall (fun m => infoWindow_open m = true) (fst (addRestaurantMarkers rs ms)).
Proof.
  revert ms. induction rs as [|r rs IH]; intros ms H; simpl; [assumption|].
  destruct (negb (is_operational (place r))); [now apply IH|].
  destruct (geometry (place r)); [|assumption].
  apply IH. apply Forall_app. split; [assumption|]. now repeat constructor.
Qed.

Lemma updateCurrentLocationMarker_markers st :
  markers (updateCurrentLocationMarker st) = markers st.
Proof.
  unfold updateCurrentLocationMarker.
  destruct (currentLocationMarker st); simpl;
    destruct (currentPosition st); reflexivity.
Qed.

Lemma updateMapMarkers_markers st :
  markers (fst (updateMapMarkers fitBounds st))
  = fst (addRestaurantMarkers (selectedRestaurants st) []).
Proof.
  unfold updateMapMarkers.
  destruct (addRestaurantMarkers (selectedRestaurants st) []) as [ms []];
    [|reflexivity].
  destruct (selectedRestaurants (updateCurrentLocationMarker _)).
  - simpl. apply updateCurrentLocationMarker_markers.
  - destruct (fitBounds _). simpl. apply updateCurrentLocationMarker_markers.
Qed.

Lemma filter_open_closed ms :
  filter infoWindow_open (map closeInfoWindow ms) = [].
Proof. induction ms as [|m ms IH]; simpl; auto. Qed.

Lemma open_after_click ms (i : nat) :
  (i < List.length ms)%nat ->
  List.length
    (filter infoWindow_open
       (update_nth i openInfoWindow (map closeInfoWindow ms))) = 1%nat.
Proof.
  revert i. induction ms as [|m ms IH]; intros i H; simpl in H; [lia|].
  destruct i as [|j]; simpl.
  - now rewrite filter_open_closed.
  - apply IH. lia.
Qed.

Lemma nth_after_click ms (i j : nat) (m : Marker) :
  nth_error (update_nth i openInfoWindow (map closeInfoWindow ms)) j = Some m ->
  infoWindow_open m = (j =? i)%nat.
Proof.
  revert i j. induction ms as [|m0 ms IH]; intros i j; simpl.
  - destruct i, j; discriminate.
  - destruct i as [|i], j as [|j]; simpl.
    + now intros [= <-].
    + intros H. apply nth_error_In, in_map_iff in H as (m1 & <- & _).
      reflexivity.
    + now intros [= <-].
    + apply IH.
Qed.

Lemma update_nth_length {A : Type} (i : nat) (f : A -> A) (l : list A) :
  List.length (update_nth i f l) = List.length l.
Proof.
  revert i. induction l as [|x l IH]; intros [|i]; simpl; auto.
Qed.

Lemma clickMarker_length st (i : nat) :
  List.length (markers (clickMarker i st)) = List.length (markers st).
Proof.
  unfold clickMarker. destruct (i <? _)%nat; [|reflexivity].
  simpl. now rewrite update_nth_length, length_map.
Qed.

Lemma clickMarker_openCount st (i : nat) :
  (i < List.length (markers st))%nat ->
  openCount (clickMarker i st) = 1%nat.
Proof.
  intros H. unfold openCount, clickMarker.
  apply Nat.ltb_lt in H as L. rewrite L. simpl. now apply open_after_click.
Qed.

(** Once one info window is open, clicks keep it at one: a click on a
    marker of the map opens that marker's and closes the rest. *)
Lemma clickAll_openCount (clicks : list nat) st :
  openCount st = 1%nat -> openCount (clickAll clicks st) = 1%nat.
Proof.
  revert st. induction clicks as [|i clicks IH]; intros st H; simpl.
  - assumption.
  - apply IH. destruct (Nat.ltb_spec i (List.length (markers st))) as [L | L].
    + now apply clickMarker_openCount.
    + unfold clickMarker. apply Nat.ltb_ge in L. now rewrite L.
Qed.

(** C9, as stated, fails: the run of the scenario that selects three
    places leaves three info windows open, one on each new marker. *)
Lemma reconciliation_opens_every_popover :
  openCount (fst (Scenario.run Scenario.allOver)) = 3%nat
  /\ ~ (openCount (fst (Scenario.run Scenario.allOver)) <= 1)%nat.
Proof. vm_compute. split; [reflexivity | lia]. Qed.

(** C9, amended.  Reconciliation opens the info window of every marker
    it creates.  The click listener of a marker closes the info window
    of every restaurant marker and then opens its own: after a click on
    a marker of the map exactly one info window is open, the clicked
    one, and further clicks keep it at one. *)
Theorem click_leaves_one_popover st (i : nat) (clicks : list nat) :
  let st1 := fst (updateMapMarkers fitBounds st) in
  (i < List.length (markers st1))%nat ->
  openCount st1 = List.length (markers st1)
  /\ openCount (clickMarker i st1) = 1%nat
  /\ (forall j m, nth_error (markers (clickMarker i st1)) j = Some m ->
                  infoWindow_open m = (j =? i)%nat)
  /\ openCount (clickAll clicks (clickMarker i st1)) = 1%nat.
Proof.
  intros st1 H. split; [|split; [|split]].
  - unfold openCount, st1. rewrite updateMapMarkers_markers.
    pose proof (@addRestaurantMarkers_open (selectedRestaurants st) []
                  (Forall_nil _)) as F.
    induction F as [|m ms Hm _ IH]; simpl; [reflexivity|].
    rewrite Hm. simpl. now rewrite IH.
  - now apply clickMarker_openCount.
  - intros j m. unfold clickMarker.
    apply Nat.ltb_lt in H as L. rewrite L. simpl. apply nth_after_click.
  - apply clickAll_openCount. now apply clickMarker_openCount.
Qed.

End MarkerFacts.

(* ================================================================= *)
(** ** GeolocationResolver *)

Section GeolocationFacts.

Variable PlaceDetails : Type.

Implicit Types (st : ViewState PlaceDetails) (r : Resolution PlaceDetails).

Lemma updateCurrentLocationMarker_position st :
  currentPosition (updateCurrentLocationMarker st) = currentPosition st
  /\ isLocationReady (updateCurrentLocationMarker st) = isLocationReady st.
Proof.
  unfold updateCurrentLocationMarker.
  destruct (currentLocationMarker st); simpl;
    destruct (currentPosition st) eqn:E; simpl; rewrite ?E;
    split; reflexivity.
Qed.

Lemma settleWith_view (pos : Coordinate) r :
  currentPosition (view (settleWith pos r)) = Some pos
  /\ isLocationReady (view (settleWith pos r)) = true.
Proof.
  unfold settleWith. simpl.
  destruct (updateCurrentLocationMarker_position
              (set_location (Some pos) true (view r))) as [-> ->].
  split; reflexivity.
Qed.

(** X19.  Without the platform API the resolution is over at once:
    settled on the default position, flag written and marker updated
    once, and no event left to deliver. *)
Lemma unsupported_settles_once st (e : GeoEvent) :
  let r := getUserLocation false st in
  settled r = true
  /\ currentPosition (view r) = Some defaultPosition
  /\ readyWrites r = 1%nat
  /\ markerUpdates r = 1%nat
  /\ deliver e r = None.
Proof.
  intros r. unfold r, getUserLocation. simpl negb. cbv iota.
  split; [reflexivity|].
  split; [apply settleWith_view|].
  split; [reflexivity|].
  split; [reflexivity|].
  now destruct e.
Qed.

(** The first event settles the promise, on the position found or on the
    default one. *)
Lemma first_event_settles st (e : GeoEvent) :
  exists r, deliver e (getUserLocation true st) = Some r
            /\ settled r = true
            /\ isLocationReady (view r) = true
            /\ readyWrites r = 1%nat
            /\ markerUpdates r = 1%nat
            /\ currentPosition (view r)
               = Some match e with
                      | PositionFound position => position
                      | _ => defaultPosition
                      end.
Proof.
  destruct e as [|position|error]; simpl; eexists;
    (split; [reflexivity|]);
    (split; [reflexivity|]);
    (split; [apply settleWith_view|]);
    (split; [reflexivity|]);
    (split; [reflexivity|]);
    apply settleWith_view.
Qed.

(** A callback that arrives before the timer cancels it: nothing can be
    delivered after it. *)
Lemma callback_first_is_final st (e e' : GeoEvent) r :
  e <> TimerExpires ->
  deliver e (getUserLocation true st) = Some r ->
  deliver e' r = None.
Proof.
  intros N. destruct e as [|position|error]; [contradiction| |];
    simpl; intros [= <-]; destruct e'; reflexivity.
Qed.

Lemma geoInvariant_start (supported : bool) st :
  geoInvariant (getUserLocation supported st).
Proof.
  destruct supported; split; simpl; try reflexivity.
  - left. auto.
  - do 4 right. auto.
Qed.

Lemma geoInvariant_deliver (e : GeoEvent) r r' :
  geoInvariant r -> deliver e r = Some r' -> geoInvariant r'.
Proof.
  intros [C I] D. unfold geoInvariant.
  destruct e as [|position|error]; simpl in D.
  - destruct (locationTimeout r) eqn:T; try discriminate.
    injection D as <-. simpl. split; [congruence|].
    destruct I as [(_ & P & W & _) | [(T' & _) | [(T' & _) | [(T' & _) | (T' & _)]]]];
      try congruence.
    right; left. rewrite P, W. auto.
  - destruct (callbackPending r) eqn:P; try discriminate.
    injection D as <-. simpl. split; [congruence|].
    destruct I as [(T & _ & W & _) | [(T & _ & W & _) | [(_ & P' & _) | [(_ & P' & _) | (_ & P' & _)]]]];
      try congruence; rewrite T, W.
    + right; right; left. auto.
    + right; right; right; left. auto.
  - destruct (callbackPending r) eqn:P; try discriminate.
    injection D as <-. simpl. split; [congruence|].
    destruct I as [(T & _ & W & _) | [(T & _ & W & _) | [(_ & P' & _) | [(_ & P' & _) | (_ & P' & _)]]]];
      try congruence; rewrite T, W.
    + right; right; left. auto.
    + right; right; right; left. auto.
Qed.

Lemma geoInvariant_deliverAll (es : list GeoEvent) r r' :
  geoInvariant r -> deliverAll es r = Some r' -> geoInvariant r'.
Proof.
  revert r. induction es as [|e es IH]; intros r I; simpl.
  - now intros [= <-].
  - destruct (deliver e r) as [r1|] eqn:D; [|discriminate].
    apply IH. now apply (geoInvariant_deliver e I).
Qed.

(** X21.  Whatever the platform delivers, the flag is written as often
    as the marker is updated, never more than twice, and at least once
    as soon as the promise is settled. *)
Lemma resolution_update_bounds (supported : bool) st
    (es : list GeoEvent) r :
  deliverAll es (getUserLocation supported st) = Some r ->
  readyWrites r = markerUpdates r
  /\ (readyWrites r <= 2)%nat
  /\ (settled r = true <-> (1 <= readyWrites r)%nat).
Proof.
  intros D.
  destruct (geoInvariant_deliverAll es (geoInvariant_start supported st) D)
    as [C I].
  split; [assumption|].
  destruct I as [(_ & _ & W & S) | [(_ & _ & W & S) | [(_ & _ & W & S)
               | [(_ & _ & W & S) | (_ & _ & W & S)]]]];
    rewrite W, S; split; try lia; split; intros; try lia; congruence.
Qed.

(** C8 fails on the late callback.  The timer that fires does not
    cancel the position request: when the position (or the error)
    arrives afterwards, the flag is written and the marker updated a
    second time, and the position moves after the promise was
    resolved. *)
Theorem late_callback_updates_twice st (position : Coordinate) :
  exists r,
    deliverAll [TimerExpires; PositionFound position]
               (getUserLocation true st) = Some r
    /\ settled r = true
    /\ readyWrites r = 2%nat
    /\ markerUpdates r = 2%nat
    /\ currentPosition (view r) = Some position.
Proof.
  simpl. eexists. split; [reflexivity|].
  split; [reflexivity|].
  split; [reflexivity|].
  split; [reflexivity|].
  apply settleWith_view.
Qed.

End GeolocationFacts.

(* ================================================================= *)
(** ** The theorems at work on the scenario *)

(** A search that finds closed places only, after a search that put
    three restaurants on display. *)
Lemma empty_candidates_keep_selection_witness :
  uniqueResults Scenario.toLowerCase Scenario.closedProvider Scenario.shown
  = []
  /\ List.length (selectedRestaurants Scenario.shown) = 3%nat
  /\ (let result := getRandomRestaurants Scenario.toLowerCase
                      Scenario.fitBounds Scenario.closedProvider
                      Scenario.allUnder Scenario.shown in
      fst result = Scenario.shown
      /\ selectedRestaurants (fst result) = selectedRestaurants Scenario.shown
      /\ markers (fst result) = markers Scenario.shown
      /\ snd result <> Selected
      /\ snd result <> ErrorCaught).
Proof.
  split; [vm_compute; reflexivity|].
  split; [vm_compute; reflexivity|].
  apply (@empty_candidates_keep_selection Scenario.toLowerCase _
           Scenario.fitBounds Scenario.closedProvider Scenario.allUnder
           Scenario.shown).
  vm_compute; reflexivity.
Defined.

(** Count 3 against the pool of four. *)
Lemma selection_size_witness :
  uniqueResults Scenario.toLowerCase Scenario.provider Scenario.state <> []
  /\ service Scenario.state = true
  /\ isLocationReady Scenario.state = true
  /\ (0 <= numberOfRestaurants Scenario.state)%Z
  /\ (let pool := topHalf (uniqueResults Scenario.toLowerCase
                             Scenario.provider Scenario.state) in
      let result := getRandomRestaurants Scenario.toLowerCase
                      Scenario.fitBounds Scenario.provider
                      Scenario.allUnder Scenario.state in
      let chosen := map (@place _) (selectedRestaurants (fst result)) in
      incl chosen pool
      /\ Z.of_nat (List.length chosen)
         = Z.min (numberOfRestaurants Scenario.state)
                 (Z.of_nat (List.length pool))
      /\ ((Z.of_nat (List.length pool) < numberOfRestaurants Scenario.state)%Z
          -> Permutation chosen pool)
      /\ snd result <> NoRestaurantsFound
      /\ (Forall located pool -> snd result = Selected)).
Proof.
  assert (N : uniqueResults Scenario.toLowerCase Scenario.provider
                Scenario.state <> []).
  { rewrite scenario_unique. discriminate. }
  split; [exact N|].
  split; [reflexivity|].
  split; [reflexivity|].
  split; [vm_compute; discriminate|].
  apply (@selection_size Scenario.toLowerCase _ Scenario.fitBounds
           Scenario.provider Scenario.allUnder Scenario.state).
  - exact N.
  - reflexivity.
  - reflexivity.
  - vm_compute; discriminate.
Defined.

(** The place rated 3.4 and the scenario's first search. *)
Lemma unrated_or_low_never_selected_witness :
  belowFloor Scenario.p8
  /\ ~ In Scenario.p8 (map (@place _) (selectedRestaurants Scenario.state))
  /\ qualityFloor Scenario.p8 = false
  /\ ~ In Scenario.p8
         (sortedResults (uniqueResults Scenario.toLowerCase
                           Scenario.provider Scenario.state))
  /\ ~ In Scenario.p8
         (map (@place _)
            (selectedRestaurants
               (fst (getRandomRestaurants Scenario.toLowerCase
                       Scenario.fitBounds Scenario.provider
                       Scenario.allUnder Scenario.state)))).
Proof.
  assert (B : belowFloor Scenario.p8) by (vm_compute; reflexivity).
  assert (N : ~ In Scenario.p8
                (map (@place _) (selectedRestaurants Scenario.state))).
  { simpl. tauto. }
  split; [exact B|]. split; [exact N|].
  exact (@unrated_or_low_never_selected Scenario.toLowerCase _
           Scenario.fitBounds Scenario.provider Scenario.allUnder
           Scenario.state Scenario.p8 B N).
Defined.

(** Three markers, a click on the second, then on the first and the
    third. *)
Lemma click_leaves_one_popover_witness :
  (1 < List.length (markers Scenario.reconciled))%nat
  /\ openCount Scenario.reconciled
     = List.length (markers Scenario.reconciled)
  /\ openCount (clickMarker 1 Scenario.reconciled) = 1%nat
  /\ (forall j m,
        nth_error (markers (clickMarker 1 Scenario.reconciled)) j = Some m ->
        infoWindow_open m = (j =? 1)%nat)
  /\ openCount (clickAll [0; 2]%nat (clickMarker 1 Scenario.reconciled))
     = 1%nat.
Proof.
  assert (H : (1 < List.length (markers Scenario.reconciled))%nat).
  { vm_compute. repeat constructor. }
  split; [exact H|].
  exact (@click_leaves_one_popover _ Scenario.fitBounds Scenario.shown 1
           [0; 2]%nat H).
Defined.

(* ================================================================= *)
(** * Further properties of the component *)

(** ** Deduplication: order and fixed points *)

Section DedupOrderFacts.

Let entry (item : RawPlace) : jsstring * RawPlace := (place_id item, item).

Let notin (ks : list jsstring) (k : jsstring) : bool :=
  negb (existsb (JsString.eqb k) ks).

Lemma eqb_sym (a b : jsstring) : JsString.eqb a b = JsString.eqb b a.
Proof.
  destruct (JsString.eqb a b) eqn:E.
  - apply JsStringFacts.eqb_eq in E. subst. now rewrite JsStringFacts.eqb_refl.
  - apply JsStringFacts.eqb_neq in E. symmetry.
    apply JsStringFacts.eqb_neq. congruence.
Qed.

Lemma notin_spec (ks : list jsstring) (k : jsstring) :
  notin ks k = true <-> ~ In k ks.
Proof.
  unfold notin. rewrite negb_true_iff. split.
  - intros E H. assert (X : existsb (JsString.eqb k) ks = true).
    { apply existsb_exists. exists k. split; [assumption|].
      apply JsStringFacts.eqb_refl. }
    congruence.
  - intros N. destruct (existsb (JsString.eqb k) ks) eqn:E; [|reflexivity].
    apply existsb_exists in E as (x & Hx & E).
    apply JsStringFacts.eqb_eq in E. subst. contradiction.
Qed.

Lemma filter_filter_weaker {A : Type} (f g : A -> bool) (l : list A) :
  (forall x, f x = true -> g x = true) ->
  filter f (filter g l) = filter f l.
Proof.
  intros H. induction l as [|x l IH]; simpl; [reflexivity|].
  destruct (g x) eqn:G; simpl.
  - now rewrite IH.
  - destruct (f x) eqn:F; [|assumption].
    apply H in F. congruence.
Qed.

Lemma filter_andb {A : Type} (f g : A -> bool) (l : list A) :
  filter (fun x => f x && g x) l = filter f (filter g l).
Proof.
  induction l as [|x l IH]; simpl; [reflexivity|].
  destruct (g x) eqn:G, (f x) eqn:F; simpl; rewrite ?F, ?IH; reflexivity.
Qed.

Lemma keys_add_entries {V : Type} (es : list (jsstring * V))
    (m : JsMap.t V) :
  JsMap.keys (JsMap.add_entries es m)
  = JsMap.keys m
    ++ filter (notin (JsMap.keys m)) (firstOccurrences (map fst es)).
Proof.
  unfold JsMap.add_entries.
  revert m. induction es as [|[k0 v0] es IH]; intros m; simpl.
  - now rewrite app_nil_r.
  - rewrite IH.
    destruct (in_dec (list_eq_dec N.eq_dec) k0 (JsMap.keys m)) as [H | H].
    + rewrite JsMapFacts.keys_set_known by assumption.
      assert (E : notin (JsMap.keys m) k0 = false).
      { destruct (notin (JsMap.keys m) k0) eqn:E; [|reflexivity].
        apply notin_spec in E. contradiction. }
      rewrite E. f_equal. symmetry. apply filter_filter_weaker.
      intros x Hx. apply notin_spec in Hx. apply negb_true_iff.
      apply JsStringFacts.eqb_neq. intros ->. contradiction.
    + rewrite JsMapFacts.keys_set_new by assumption.
      assert (E : notin (JsMap.keys m) k0 = true) by now apply notin_spec.
      rewrite E, <- app_assoc. simpl. do 2 f_equal.
      rewrite <- filter_andb. apply filter_ext. intros k.
      unfold notin. rewrite existsb_app. simpl.
      rewrite orb_false_r, negb_orb, (eqb_sym k k0). reflexivity.
Qed.

Lemma set_new {V : Type} (m : JsMap.t V) (k : jsstring) (v : V) :
  ~ In k (JsMap.keys m) -> JsMap.set m k v = m ++ [(k, v)].
Proof.
  induction m as [|[k0 v0] m IH]; simpl; [reflexivity|].
  intros N. destruct (JsString.eqb k0 k) eqn:E.
  - apply JsStringFacts.eqb_eq in E. tauto.
  - f_equal. apply IH. tauto.
Qed.

Lemma add_entries_distinct {V : Type} (es : list (jsstring * V))
    (m : JsMap.t V) :
  NoDup (map fst es) ->
  (forall k, In k (map fst es) -> ~ In k (JsMap.keys m)) ->
  JsMap.add_entries es m = m ++ es.
Proof.
  unfold JsMap.add_entries.
  revert m. induction es as [|[k0 v0] es IH]; intros m ND D; simpl.
  - now rewrite app_nil_r.
  - inversion ND as [|? ? N ND']; subst.
    rewrite set_new by (apply D; now left).
    rewrite IH; [now rewrite <- app_assoc | assumption |].
    intros k Hk Hin. unfold JsMap.keys in Hin.
    rewrite map_app, in_app_iff in Hin. simpl in Hin.
    destruct Hin as [Hin | [<- | []]]; [|contradiction].
    apply (D k); [now right | exact Hin].
Qed.

Lemma dedup_fixed (all : list RawPlace) :
  NoDup (map place_id all) -> dedup all = all.
Proof.
  intros ND. unfold dedup, JsMap.of_entries.
  rewrite add_entries_distinct.
  - simpl. unfold JsMap.values. rewrite map_map. simpl. apply map_id.
  - now rewrite map_map.
  - intros k _ [].
Qed.

(** X1.  A list of places with pairwise different ids goes through the
    dedup step unchanged: nothing is dropped and the order is kept. *)
Theorem dedup_keeps_distinct_list (all : list RawPlace) :
  NoDup (map place_id all) -> dedup all = all.
Proof. apply dedup_fixed. Qed.

(** X2.  Deduplicating twice is deduplicating once. *)
Theorem dedup_idempotent (all : list RawPlace) :
  dedup (dedup all) = dedup all.
Proof. apply dedup_fixed, NoDup_dedup_ids. Qed.

(** X3.  The dedup step lists the places by the first occurrence of
    their ids: a place seen again later keeps the position of its first
    record (and, by the last-wins rule, takes the fields of its last). *)
Theorem dedup_first_occurrence_order (all : list RawPlace) :
  map place_id (dedup all) = firstOccurrences (map place_id all).
Proof.
  rewrite dedup_ids. unfold JsMap.of_entries.
  rewrite keys_add_entries, map_map. simpl.
  assert (T : forall ids, filter (notin []) ids = ids).
  { intros ids. induction ids as [|k ids IH]; simpl; congruence. }
  rewrite T. reflexivity.
Qed.

End DedupOrderFacts.

(* ================================================================= *)
(** ** Ranking *)

Section RankingMoreFacts.

(** X4.  The ranked list holds exactly the candidates rated 3.5 or more,
    each as often as before, best rated first. *)
Theorem ranking_descending_permutation (unique : list RawPlace) :
  Permutation (sortedResults unique) (filter qualityFloor unique)
  /\ StronglySorted ratingGe (sortedResults unique)
  /\ Forall (fun p => exists r, rating p = Some r /\ 3.5 <= r)
            (sortedResults unique).
Proof.
  split; [apply sortedResults_perm|].
  split; [apply sortedResults_sorted|].
  apply Forall_forall. intros p H.
  apply (Permutation_in _ (sortedResults_perm unique)) in H.
  apply filter_In in H as [_ H]. now apply qualityFloor_true.
Qed.

Lemma insert_not_better (sorted_rev : list RawPlace) (x : RawPlace) :
  (forall tmp, In tmp sorted_rev -> ratingGe tmp x) ->
  insert byRating sorted_rev x tt = (x :: sorted_rev, tt).
Proof.
  destruct sorted_rev as [|tmp rest]; intros H; simpl; [reflexivity|].
  unfold bind.
  change (byRating tmp x tt) with (js_sub (rating x) (rating tmp), tt).
  specialize (H tmp (or_introl eq_refl)). unfold ratingGe in H.
  destruct (rating tmp) as [rt|]; [|contradiction].
  destruct (rating x) as [rx|]; [|contradiction].
  destruct (js_pos (js_sub (Some rx) (Some rt))) eqn:E; [|reflexivity].
  apply js_pos_sub in E. lra.
Qed.

Lemma sort_loop_ranked (todo sorted_rev : list RawPlace) :
  StronglySorted ratingGe (rev sorted_rev ++ todo) ->
  fst (sort_loop byRating sorted_rev todo tt) = rev sorted_rev ++ todo.
Proof.
  revert sorted_rev. induction todo as [|x todo IH]; intros sorted_rev H.
  - simpl. now rewrite app_nil_r.
  - simpl. unfold bind. rewrite insert_not_better.
    + rewrite IH; simpl; rewrite <- app_assoc; [reflexivity | exact H].
    + intros tmp Hin.
      apply (@StronglySorted_app_inv _ ratingGe (rev sorted_rev) (x :: todo) H);
        [now apply -> in_rev | now left].
Qed.

(** X6.  Ranking does not reorder what is ranked already: when the
    candidates above the floor arrive best rated first, ties included,
    they stay in the order the provider gave them. *)
Theorem ranking_keeps_ranked_order (unique : list RawPlace) :
  StronglySorted ratingGe (filter qualityFloor unique) ->
  sortedResults unique = filter qualityFloor unique.
Proof.
  intros H. unfold sortedResults, Array_sort.
  now rewrite sort_loop_ranked.
Qed.

End RankingMoreFacts.

(* ================================================================= *)
(** ** The pipeline, step by step *)

Section PipelineMoreFacts.

Variable toLowerCase : jsstring -> jsstring.
Variable PlaceDetails : Type.
Variable fitBounds : list Coordinate -> Coordinate * Q.

Implicit Types (prov : Provider PlaceDetails) (st : ViewState PlaceDetails).
Implicit Types (rnd : RandomSource) (p : RawPlace).

Lemma relevant_operational (kw : jsstring) p :
  relevant toLowerCase kw p = true -> is_operational p = true.
Proof.
  unfold relevant, isRelevantRestaurant, is_operational.
  destruct (business_status p) as [[| |]|]; simpl; congruence.
Qed.

Lemma In_dedup_In (all : list RawPlace) p : In p (dedup all) -> In p all.
Proof.
  intros H. apply In_dedup in H. unfold lastSeen in H.
  apply find_some in H as [H _]. now apply in_rev.
Qed.

Lemma selected_In_unique rnd (count : Z) (unique : list RawPlace) p :
  In p (selected rnd count unique) ->
  In p unique /\ qualityFloor p = true.
Proof.
  intros H. apply selected_incl in H. unfold topHalf in H.
  apply slice0_incl in H.
  apply (Permutation_in _ (sortedResults_perm unique)) in H.
  now apply filter_In in H.
Qed.

(** The selection after a run, whichever way the run ends. *)
Lemma selection_after_run prov rnd st :
  selectedRestaurants
    (fst (getRandomRestaurants toLowerCase fitBounds prov rnd st))
  = if negb (service st) then selectedRestaurants st
    else if negb (isLocationReady st) then selectedRestaurants st
    else match uniqueResults toLowerCase prov st with
         | [] => selectedRestaurants st
         | _ :: _ =>
             map (enrich prov st)
                 (selected rnd (numberOfRestaurants st)
                           (uniqueResults toLowerCase prov st))
         end.
Proof.
  unfold getRandomRestaurants.
  destruct (service st); simpl; [|reflexivity].
  destruct (isLocationReady st); simpl; [|reflexivity].
  destruct (uniqueResults toLowerCase prov st) as [|u us]; [reflexivity|].
  set (chosen := selected rnd (numberOfRestaurants st) (u :: us)).
  set (st1 := set_selectedRestaurants (map (enrich prov st) chosen) st).
  pose proof (updateMapMarkers_selection fitBounds st1) as E.
  destruct (updateMapMarkers fitBounds st1) as [st2 []]; simpl in E.
  - destruct (selectedRestaurants st2) eqn:F; simpl; rewrite ?F; exact E.
  - exact E.
Qed.

(** X7.  Every restaurant a run puts on display came from the provider's
    answer, is OPERATIONAL, matches the keyword and is rated 3.5 or
    more; its details and distance are the ones looked up for that very
    place. *)
Theorem selected_restaurants_qualify prov rnd st
    (r : SelectedRestaurant PlaceDetails) :
  service st = true ->
  isLocationReady st = true ->
  uniqueResults toLowerCase prov st <> [] ->
  In r (selectedRestaurants
          (fst (getRandomRestaurants toLowerCase fitBounds prov rnd st))) ->
  In (place r) (allResults prov st)
  /\ business_status (place r) = Some OPERATIONAL
  /\ relevant toLowerCase (searchKeyword st) (place r) = true
  /\ (exists q, rating (place r) = Some q /\ 3.5 <= q)
  /\ details r = getPlaceDetails prov (place_id (place r))
  /\ distance r
     = calculateDistance prov (currentPosition st) (geometry (place r)).
Proof.
  intros Sv Rd U H. rewrite selection_after_run, Sv, Rd in H. simpl in H.
  destruct (uniqueResults toLowerCase prov st) as [|u us] eqn:E;
    [contradiction|].
  apply in_map_iff in H as (p & <- & H). simpl.
  apply selected_In_unique in H as [H Q]. rewrite <- E in H.
  unfold uniqueResults in H. apply filter_In in H as [H R].
  split; [now apply In_dedup_In|].
  split.
  { apply relevant_operational in R. unfold is_operational in R.
    destruct (business_status p) as [[| |]|]; simpl in R; congruence. }
  split; [assumption|].
  split; [now apply qualityFloor_true|].
  split; reflexivity.
Qed.

Lemma NoDup_map_filter {A B : Type} (g : A -> B) (f : A -> bool)
    (l : list A) :
  NoDup (map g l) -> NoDup (map g (filter f l)).
Proof.
  induction l as [|x l IH]; simpl; intros ND; [constructor|].
  inversion ND as [|? ? N ND']; subst.
  destruct (f x); simpl; [|auto].
  constructor; [|auto].
  intros H. apply N. apply in_map_iff in H as (y & E & H).
  apply filter_In in H as [H _]. apply in_map_iff. now exists y.
Qed.

Lemma NoDup_firstn {A : Type} (n : nat) (l : list A) :
  NoDup l -> NoDup (firstn n l).
Proof.
  intros ND. rewrite <- (firstn_skipn n l) in ND.
  now apply NoDup_app_remove_r in ND.
Qed.

Lemma selected_ids_NoDup rnd (count : Z) (unique : list RawPlace) :
  NoDup (map place_id unique) ->
  NoDup (map place_id (selected rnd count unique)).
Proof.
  intros ND. unfold selected, slice0. rewrite <- firstn_map.
  apply NoDup_firstn.
  apply (Permutation_NoDup
           (Permutation_sym (Permutation_map place_id
                               (shuffled_perm rnd (topHalf unique))))).
  unfold topHalf, slice0. rewrite <- firstn_map. apply NoDup_firstn.
  apply (Permutation_NoDup
           (Permutation_sym (Permutation_map place_id
                               (sortedResults_perm unique)))).
  now apply NoDup_map_filter.
Qed.

(** X8.  A run never selects the same place twice: the ids of the
    restaurants it puts on display are pairwise different, even when the
    provider lists a place several times. *)
Theorem selection_has_distinct_places prov rnd st :
  service st = true ->
  isLocationReady st = true ->
  uniqueResults toLowerCase prov st <> [] ->
  NoDup (map (fun r => place_id (place r))
             (selectedRestaurants
                (fst (getRandomRestaurants toLowerCase fitBounds
                        prov rnd st)))).
Proof.
  intros Sv Rd U. rewrite selection_after_run, Sv, Rd. simpl.
  destruct (uniqueResults toLowerCase prov st) as [|u us] eqn:E;
    [contradiction|].
  rewrite map_map. simpl. rewrite <- E.
  apply selected_ids_NoDup. unfold uniqueResults.
  apply NoDup_map_filter, NoDup_dedup_ids.
Qed.

Lemma uniqueResults_ext prov prov' st :
  (forall request, nearbySearch prov request = nearbySearch prov' request) ->
  uniqueResults toLowerCase prov st = uniqueResults toLowerCase prov' st.
Proof.
  intros H. unfold uniqueResults, allResults. do 3 f_equal.
  apply map_ext. intros request. unfold search. now rewrite H.
Qed.

(** X9.  What the details lookup answers, failure included, has no say
    in which restaurants are selected or in their order: two providers
    that answer the searches alike lead to the same places on display.
    An entry whose details cannot be fetched is not removed. *)
Theorem details_do_not_change_selection prov prov' rnd st :
  (forall request, nearbySearch prov request = nearbySearch prov' request) ->
  map (@place _)
      (selectedRestaurants
         (fst (getRandomRestaurants toLowerCase fitBounds prov rnd st)))
  = map (@place _)
        (selectedRestaurants
           (fst (getRandomRestaurants toLowerCase fitBounds prov' rnd st))).
Proof.
  intros H.
  rewrite !selection_after_run, (@uniqueResults_ext prov prov' st H).
  destruct (service st); simpl; [|reflexivity].
  destruct (isLocationReady st); simpl; [|reflexivity].
  destruct (uniqueResults toLowerCase prov' st); [reflexivity|].
  now rewrite !map_place_enrich.
Qed.

(** X10.  A search the provider does not answer with OK contributes
    nothing: when no request succeeds the run reports that no restaurant
    was found and leaves the state as it was. *)
Theorem failed_search_changes_nothing prov rnd st :
  service st = true ->
  isLocationReady st = true ->
  (forall request, is_OK (fst (nearbySearch prov request)) = false) ->
  getRandomRestaurants toLowerCase fitBounds prov rnd st
  = (st, NoRestaurantsFound).
Proof.
  intros Sv Rd F.
  assert (A : allResults prov st = []).
  { unfold allResults.
    assert (E : forall l, List.concat (map (search prov) l) = []).
    { induction l as [|request l IH]; simpl; [reflexivity|].
      rewrite IH, app_nil_r. unfold search. specialize (F request).
      destruct (nearbySearch prov request) as [status [results|]];
        simpl in F; [now rewrite F | reflexivity]. }
    apply E. }
  unfold getRandomRestaurants, uniqueResults. rewrite Sv, Rd, A. reflexivity.
Qed.

End PipelineMoreFacts.

(* ================================================================= *)
(** ** MapSync: markers and selection *)

Section MapSyncFacts.

Variable toLowerCase : jsstring -> jsstring.
Variable PlaceDetails : Type.
Variable fitBounds : list Coordinate -> Coordinate * Q.

Implicit Types (prov : Provider PlaceDetails) (st : ViewState PlaceDetails).
Implicit Types (rs : list (SelectedRestaurant PlaceDetails)).
Implicit Types (ms : list Marker).

(** A marker made by reconciliation: its info window is open and it
    stands where its restaurant is. *)
Let wellPlaced (m : Marker) : Prop :=
  geometry (marker_place m) = Some (marker_position m)
  /\ infoWindow_open m = true.

Lemma addRestaurantMarkers_all rs ms ms' :
  Forall (fun r => is_operational (place r) = true) rs ->
  addRestaurantMarkers rs ms = (ms', Normal) ->
  map marker_place ms' = map marker_place ms ++ map (@place _) rs
  /\ (Forall wellPlaced ms -> Forall wellPlaced ms').
Proof.
  revert ms. induction rs as [|r rs IH]; intros ms Op H; simpl in H.
  - injection H as <-. simpl. rewrite app_nil_r. auto.
  - inversion Op as [|? ? Or Ors]; subst. rewrite Or in H. simpl in H.
    destruct (geometry (place r)) as [position|] eqn:G.
    + destruct (IH _ Ors H) as [E W]. split.
      * rewrite E, map_app, <- app_assoc. reflexivity.
      * intros Wm. apply W. apply Forall_app. split; [assumption|].
        repeat constructor. simpl. exact G.
    + destruct (addRestaurantMarkers rs ms); discriminate.
Qed.

Lemma addRestaurantMarkers_stops rs :
  forall ms, snd (addRestaurantMarkers rs ms) = Thrown \/
             snd (addRestaurantMarkers rs ms) = Normal.
Proof.
  intros ms. destruct (snd (addRestaurantMarkers rs ms)); auto.
Qed.

(** X11.  After a run that ends normally the map shows one marker for
    each restaurant on display, in the same order, each at its
    restaurant's location with its info window open, none left from the
    previous selection; and the confetti is triggered when at least one
    restaurant was selected. *)
Theorem markers_mirror_selection prov (rnd : RandomSource) st :
  snd (getRandomRestaurants toLowerCase fitBounds prov rnd st) = Selected ->
  let st' := fst (getRandomRestaurants toLowerCase fitBounds prov rnd st) in
  map marker_place (markers st') = map (@place _) (selectedRestaurants st')
  /\ Forall (fun m => geometry (marker_place m) = Some (marker_position m)
                      /\ infoWindow_open m = true) (markers st')
  /\ (selectedRestaurants st' <> [] -> showConfetti st' = true).
Proof.
  unfold getRandomRestaurants.
  destruct (service st); simpl; [|discriminate].
  destruct (isLocationReady st); simpl; [|discriminate].
  destruct (uniqueResults toLowerCase prov st) as [|u us] eqn:U;
    [discriminate|].
  set (chosen := selected rnd (numberOfRestaurants st) (u :: us)).
  set (st1 := set_selectedRestaurants (map (enrich prov st) chosen) st).
  assert (Op : Forall (fun r => is_operational (place r) = true)
                      (selectedRestaurants st1)).
  { simpl. apply Forall_forall. intros r Hr.
    apply in_map_iff in Hr as (p & <- & Hp). simpl.
    apply selected_In_unique in Hp as [Hp _]. rewrite <- U in Hp.
    unfold uniqueResults in Hp. apply filter_In in Hp as [_ Hp].
    now apply (relevant_operational toLowerCase (searchKeyword st)). }
  pose proof (updateMapMarkers_selection fitBounds st1) as Es.
  pose proof (updateMapMarkers_markers fitBounds st1) as Em.
  assert (C : snd (updateMapMarkers fitBounds st1)
              = snd (addRestaurantMarkers (selectedRestaurants st1) [])).
  { unfold updateMapMarkers.
    destruct (addRestaurantMarkers (selectedRestaurants st1) []) as [ms []];
      [|reflexivity].
    destruct (selectedRestaurants (updateCurrentLocationMarker _));
      [reflexivity|]. now destruct (fitBounds _). }
  destruct (updateMapMarkers fitBounds st1) as [st2 c].
  cbn [fst snd] in Es, Em, C.
  destruct c; [|discriminate].
  destruct (addRestaurantMarkers (selectedRestaurants st1) []) as [ms c]
    eqn:A. cbn [fst snd] in Em, C. subst c.
  destruct (addRestaurantMarkers_all _ Op A) as [E W].
  intros _.
  destruct (selectedRestaurants st2) eqn:F; simpl; rewrite ?F.
  - rewrite Em, E, <- Es. split; [reflexivity|].
    split; [|congruence]. apply W. constructor.
  - rewrite Em, E, <- Es. split; [reflexivity|].
    split; [|reflexivity]. apply W. constructor.
Qed.

Lemma addRestaurantMarkers_app rs1 rs2 ms :
  snd (addRestaurantMarkers rs1 ms) = Normal ->
  addRestaurantMarkers (rs1 ++ rs2) ms
  = addRestaurantMarkers rs2 (fst (addRestaurantMarkers rs1 ms)).
Proof.
  revert ms. induction rs1 as [|r rs1 IH]; intros ms H; simpl in *.
  - reflexivity.
  - destruct (negb (is_operational (place r))); [now apply IH|].
    destruct (geometry (place r)); [now apply IH | discriminate].
Qed.

(** X12.  An OPERATIONAL restaurant without a location stops the
    reconciliation with an exception.  When the restaurants before it
    all have a location, the markers made for the OPERATIONAL ones among
    them stay, none is made for the ones after it, and the location
    marker and the viewport are not touched. *)
Theorem missing_location_stops_reconciliation st rs1 rs2
    (r : SelectedRestaurant PlaceDetails) :
  selectedRestaurants st = rs1 ++ r :: rs2 ->
  Forall (fun q => located (place q)) rs1 ->
  is_operational (place r) = true ->
  geometry (place r) = None ->
  updateMapMarkers fitBounds st
  = (set_markers (fst (addRestaurantMarkers rs1 [])) st, Thrown)
  /\ List.length (fst (addRestaurantMarkers rs1 []))
     = List.length (filter (fun q => is_operational (place q)) rs1).
Proof.
  intros E L Op G. split.
  - unfold updateMapMarkers. rewrite E.
    rewrite addRestaurantMarkers_app
      by now apply addRestaurantMarkers_normal.
    simpl. rewrite Op, G. reflexivity.
  - clear E. assert (K : forall ms,
      List.length (fst (addRestaurantMarkers rs1 ms))
      = (List.length ms
         + List.length (filter (fun q => is_operational (place q)) rs1))%nat).
    { induction rs1 as [|q rs1 IH]; intros ms; simpl; [lia|].
      inversion L as [|? ? Lq Lr]; subst.
      destruct (is_operational (place q)); simpl.
      - unfold located in Lq. destruct (geometry (place q)); [|congruence].
        rewrite IH by assumption. rewrite length_app. simpl. lia.
      - now apply IH. }
    now rewrite K.
Qed.

End MapSyncFacts.

(* ================================================================= *)
(** ** Input validation *)

Section ValidationFacts.

Variable toLowerCase : jsstring -> jsstring.
Variable PlaceDetails : Type.
Variable fitBounds : list Coordinate -> Coordinate * Q.

Implicit Types (prov : Provider PlaceDetails) (st : ViewState PlaceDetails).

(** X13.  Leaving the count input brings the count into the range 1 to
    10: a count in the range is kept, a smaller one becomes 1, a larger
    one 10; nothing else in the state changes, and checking twice is
    checking once. *)
Theorem count_check_clamps st :
  let st' := checkNumberOfRestaurants st in
  numberOfRestaurants st' = Z.max 1 (Z.min 10 (numberOfRestaurants st))
  /\ st' = set_inputs (numberOfRestaurants st') (searchRadius st) st
  /\ checkNumberOfRestaurants st' = st'.
Proof.
  unfold checkNumberOfRestaurants.
  destruct (Z.ltb_spec (numberOfRestaurants st) 1) as [L | L].
  - simpl. split; [lia|]. split; reflexivity.
  - destruct (Z.ltb_spec 10 (numberOfRestaurants st)) as [U | U].
    + simpl. split; [lia|]. split; reflexivity.
    + simpl. split; [lia|]. split; [now destruct st|].
      destruct (Z.ltb_spec (numberOfRestaurants st) 1); [lia|].
      destruct (Z.ltb_spec 10 (numberOfRestaurants st)); [lia|].
      reflexivity.
Qed.

(** X14.  Leaving the radius input brings the radius into the range 500
    to 5000 metres, the same way. *)
Theorem radius_check_clamps st :
  let st' := checkSearchRadius st in
  searchRadius st' = Z.max 500 (Z.min 5000 (searchRadius st))
  /\ st' = set_inputs (numberOfRestaurants st) (searchRadius st') st
  /\ checkSearchRadius st' = st'.
Proof.
  unfold checkSearchRadius.
  destruct (Z.ltb_spec (searchRadius st) 500) as [L | L].
  - simpl. split; [lia|]. split; reflexivity.
  - destruct (Z.ltb_spec 5000 (searchRadius st)) as [U | U].
    + simpl. split; [lia|]. split; reflexivity.
    + simpl. split; [lia|]. split; [now destruct st|].
      destruct (Z.ltb_spec (searchRadius st) 500); [lia|].
      destruct (Z.ltb_spec 5000 (searchRadius st)); [lia|].
      reflexivity.
Qed.

Lemma topHalf_nonempty (unique : list RawPlace) (p : RawPlace) :
  In p unique -> qualityFloor p = true -> topHalf unique <> [].
Proof.
  intros H Q E.
  assert (I : In p (sortedResults unique)).
  { apply (Permutation_in _ (Permutation_sym (sortedResults_perm unique))).
    apply filter_In. now split. }
  rewrite topHalf_firstn in E.
  destruct (sortedResults unique) as [|q l]; [contradiction|].
  simpl in E. discriminate.
Qed.

(** X15.  With the count validated, a search started from a ready state
    that finds at least one matching place rated 3.5 or more puts at
    least one restaurant and at most ten on display. *)
Theorem validated_search_selects_one_to_ten prov (rnd : RandomSource) st
    (p : RawPlace) :
  let st' := checkNumberOfRestaurants st in
  service st = true ->
  isLocationReady st = true ->
  In p (uniqueResults toLowerCase prov st) ->
  qualityFloor p = true ->
  (1 <= List.length
          (selectedRestaurants
             (fst (getRandomRestaurants toLowerCase fitBounds prov rnd st')))
     <= 10)%nat.
Proof.
  intros st' Sv Rd H Q.
  assert (U : uniqueResults toLowerCase prov st'
              = uniqueResults toLowerCase prov st).
  { unfold st', checkNumberOfRestaurants.
    destruct (_ <? _)%Z; [reflexivity|]. now destruct (_ <? _)%Z. }
  assert (Sv' : service st' = true).
  { unfold st', checkNumberOfRestaurants.
    destruct (_ <? _)%Z; [assumption|]. now destruct (_ <? _)%Z. }
  assert (Rd' : isLocationReady st' = true).
  { unfold st', checkNumberOfRestaurants.
    destruct (_ <? _)%Z; [assumption|]. now destruct (_ <? _)%Z. }
  pose proof (checkNumberOfRestaurants_range st) as R. fold st' in R.
  rewrite selection_after_run, Sv', Rd', U. simpl.
  destruct (uniqueResults toLowerCase prov st) as [|u us] eqn:E;
    [contradiction|].
  rewrite length_map. unfold selected.
  rewrite slice0_nonneg by lia. rewrite length_firstn.
  rewrite (Permutation_length (shuffled_perm rnd (topHalf (u :: us)))).
  pose proof (@topHalf_nonempty (u :: us) p H Q) as N.
  destruct (topHalf (u :: us)) as [|q l]; [contradiction|].
  simpl List.length. lia.
Qed.

End ValidationFacts.

(* ================================================================= *)
(** ** Keywords: what is searched and what is kept *)

Section KeywordFacts.

Variable toLowerCase : jsstring -> jsstring.

Lemma trim_truthy (kw : jsstring) (c : JsString.unit) :
  In c kw -> JsString.isWhiteSpace c = false ->
  JsString.truthy (JsString.trim kw) = true.
Proof.
  intros H W. destruct (JsString.trim kw) eqn:E; [|reflexivity].
  apply JsStringFacts.trim_nil in E. rewrite forallb_forall in E.
  apply E in H. congruence.
Qed.

(** X16.  Every keyword that contains the hot-pot word is searched as
    the same fixed request, the hot-pot word followed by the restaurant
    suffix and ranked by rating, whatever else the keyword says. *)
Theorem hotpot_keyword_fixed_request (kw : jsstring) :
  JsString.substring_of Lit.hotpot kw ->
  getSearchRequests kw
  = [ {| keyword := Some (Lit.hotpot ++ Lit.space ++ Lit.canting);
         type_ := Lit.restaurant;
         rankby := Some Lit.rating |} ].
Proof.
  intros H. rewrite getSearchRequests_cases.
  assert (I : JsString.includes kw Lit.hotpot = true)
    by now apply JsStringFacts.includes_spec.
  destruct H as (a & b & ->).
  rewrite (@trim_truthy _ 0x706B%N), I; [reflexivity | | reflexivity].
  apply in_or_app. right. now left.
Qed.

Lemma relevant_nonempty (place : RawPlace) (kw : jsstring) :
  kw <> [] ->
  (relevant toLowerCase kw place = true <->
   business_status place = Some OPERATIONAL
   /\ ((exists n, name place = Some n /\ matches toLowerCase kw n)
       \/ (exists ts ty, types place = Some ts /\ In ty ts
                         /\ matches toLowerCase kw ty)
       \/ (exists v, vicinity place = Some v /\ matches toLowerCase kw v))).
Proof.
  intros N. unfold relevant, isRelevantRestaurant, matches.
  destruct (business_status place) as [[| |]|]; simpl;
    try (split; [discriminate | intros [[=] _]]).
  destruct kw as [|c w]; [contradiction|]. simpl.
  rewrite !ToBoolean_js_or, !orb_true_iff, !ToBoolean_opt_call.
  setoid_rewrite JsStringFacts.includes_spec.
  split.
  - intros [[(n & Hn & H) | (ts & Hts & H)] | (v & Hv & H)];
      (split; [reflexivity|]).
    + left. eauto.
    + right; left. apply existsb_exists in H as (ty & Hin & H).
      apply JsStringFacts.includes_spec in H. eauto 6.
    + right; right. eauto.
  - intros [_ [(n & Hn & H) | [(ts & ty & Hts & Hin & H) | (v & Hv & H)]]].
    + left; left. eauto.
    + left; right. exists ts. split; [assumption|].
      apply existsb_exists. exists ty. split; [assumption|].
      now apply JsStringFacts.includes_spec.
    + right. eauto.
Qed.

(** X17.  A keyword made of white space only is searched as no keyword
    at all, the broad restaurant request, and yet it is not an empty
    keyword for the filter: a place is kept only if that white space,
    lowercased, occurs in its lowercased name, tags or address. *)
Theorem blank_keyword_searched_broadly_filtered_strictly
    (kw : jsstring) (place : RawPlace) :
  kw <> [] ->
  forallb JsString.isWhiteSpace kw = true ->
  getSearchRequests kw
  = [ {| keyword := None; type_ := Lit.restaurant; rankby := None |} ]
  /\ (relevant toLowerCase kw place = true <->
      business_status place = Some OPERATIONAL
      /\ ((exists n, name place = Some n /\ matches toLowerCase kw n)
          \/ (exists ts ty, types place = Some ts /\ In ty ts
                            /\ matches toLowerCase kw ty)
          \/ (exists v, vicinity place = Some v
                        /\ matches toLowerCase kw v))).
Proof.
  intros N W. split; [|now apply relevant_nonempty].
  rewrite getSearchRequests_cases.
  apply JsStringFacts.trim_nil in W. now rewrite W.
Qed.

(** X18.  The filter does not tell apart keywords that differ in case
    only: two non-empty keywords with the same lowercase form give the
    same verdict on every place. *)
Theorem keyword_case_is_ignored (kw1 kw2 : jsstring) (place : RawPlace) :
  kw1 <> [] -> kw2 <> [] ->
  toLowerCase kw1 = toLowerCase kw2 ->
  isRelevantRestaurant toLowerCase place kw1
  = isRelevantRestaurant toLowerCase place kw2.
Proof.
  intros N1 N2 E. unfold isRelevantRestaurant.
  destruct kw1 as [|c1 w1]; [contradiction|].
  destruct kw2 as [|c2 w2]; [contradiction|].
  simpl JsString.truthy. cbv iota. simpl negb. now rewrite E.
Qed.

End KeywordFacts.

(* ================================================================= *)
(** ** Locating and initialising *)

Section LocatingFacts.

Variable toLowerCase : jsstring -> jsstring.
Variable PlaceDetails : Type.
Variable fitBounds : list Coordinate -> Coordinate * Q.

Implicit Types (prov : Provider PlaceDetails) (st : ViewState PlaceDetails).
Implicit Types (r : Resolution PlaceDetails) (rnd : RandomSource).

(** X20.  A position or an error that arrives before the ten seconds are
    over ends the resolution for good: the timer is cancelled, the flag
    is written and the marker updated exactly once, and neither the
    timer nor another callback can follow. *)
Theorem timely_callback_is_final st (e e' : GeoEvent) :
  e <> TimerExpires ->
  exists r,
    deliver e (getUserLocation true st) = Some r
    /\ settled r = true
    /\ locationTimeout r = Cleared
    /\ readyWrites r = 1%nat
    /\ markerUpdates r = 1%nat
    /\ currentPosition (view r) = Some (eventPosition e)
    /\ deliver e' r = None.
Proof.
  intros N. destruct (first_event_settles st e) as (r & D & S & _ & W & M & P).
  exists r. split; [assumption|]. split; [assumption|].
  split.
  { destruct e as [|position|error]; [contradiction| |];
      simpl in D; injection D as <-; reflexivity. }
  split; [assumption|]. split; [assumption|].
  split.
  { rewrite P. now destruct e. }
  now apply (@callback_first_is_final _ st e e' r N D).
Qed.

Lemma updateCurrentLocationMarker_marker st (pos : Coordinate) :
  currentPosition st = Some pos ->
  currentLocationMarker (updateCurrentLocationMarker st)
  = Some {| loc_position := pos; loc_on_map := true;
            loc_infoWindow_open := true |}
  /\ mapCenter (updateCurrentLocationMarker st) = pos
  /\ service (updateCurrentLocationMarker st) = service st.
Proof.
  intros E. unfold updateCurrentLocationMarker.
  destruct (currentLocationMarker st); simpl; rewrite E; simpl; auto.
Qed.

Lemma deliver_view (e : GeoEvent) r r' :
  deliver e r = Some r' ->
  view r' = updateCurrentLocationMarker
              (set_location (Some (eventPosition e)) true (view r))
  /\ settled r' = true.
Proof.
  destruct e as [|position|error]; simpl.
  - destruct (locationTimeout r); try discriminate. now intros [= <-].
  - destruct (callbackPending r); try discriminate. now intros [= <-].
  - destruct (callbackPending r); try discriminate. now intros [= <-].
Qed.

Lemma deliverAll_app (es : list GeoEvent) (e : GeoEvent) r r' :
  deliverAll (es ++ [e]) r = Some r' ->
  exists r0, deliverAll es r = Some r0 /\ deliver e r0 = Some r'.
Proof.
  revert r. induction es as [|e0 es IH]; intros r; simpl.
  - destruct (deliver e r) as [r1|] eqn:D; [|discriminate].
    intros [= <-]. exists r. split; [reflexivity | exact D].
  - destruct (deliver e0 r) as [r1|]; [|discriminate]. apply IH.
Qed.

(** X22.  The last event delivered decides the position: after it the
    location is ready, the current position is the one the event
    carries (the default one for the timer and for an error), the
    location marker stands there with its info window open, and the map
    is centred on it.  A position that arrives after the timer has
    fired replaces the default position. *)
Theorem last_event_sets_position (supported : bool) st
    (es : list GeoEvent) (e : GeoEvent) r :
  deliverAll (es ++ [e]) (getUserLocation supported st) = Some r ->
  settled r = true
  /\ isLocationReady (view r) = true
  /\ currentPosition (view r) = Some (eventPosition e)
  /\ currentLocationMarker (view r)
     = Some {| loc_position := eventPosition e; loc_on_map := true;
               loc_infoWindow_open := true |}
  /\ mapCenter (view r) = eventPosition e.
Proof.
  intros D. apply deliverAll_app in D as (r0 & _ & D).
  apply deliver_view in D as [V S]. rewrite V.
  split; [assumption|].
  destruct (updateCurrentLocationMarker_position
              (set_location (Some (eventPosition e)) true (view r0)))
    as [P R].
  destruct (@updateCurrentLocationMarker_marker
              (set_location (Some (eventPosition e)) true (view r0))
              (eventPosition e) eq_refl) as (M & C & _).
  rewrite P, R, M, C. auto.
Qed.

(** X23.  When the maps script does not load or the map container is
    missing, [initMap] gives up before the places service exists; from
    then on every search returns at once and leaves the state alone. *)
Theorem failed_init_disables_search (loaded mounted supported : bool)
    prov rnd st :
  loaded = false \/ mounted = false ->
  service st = false ->
  initMap loaded mounted supported st = InitFailed st
  /\ getRandomRestaurants toLowerCase fitBounds prov rnd st
     = (st, ServiceNotInitialized).
Proof.
  intros F Sv. split.
  - unfold initMap. destruct F as [-> | ->]; [reflexivity|].
    now destruct loaded.
  - unfold getRandomRestaurants. now rewrite Sv.
Qed.

Lemma deliver_service (e : GeoEvent) r r' :
  deliver e r = Some r' -> service (view r') = service (view r).
Proof.
  intros D. apply deliver_view in D as [-> _].
  destruct (@updateCurrentLocationMarker_marker
              (set_location (Some (eventPosition e)) true (view r))
              (eventPosition e) eq_refl) as (_ & _ & Sv).
  now rewrite Sv.
Qed.

Lemma deliverAll_service (es : list GeoEvent) r r' :
  deliverAll es r = Some r' -> service (view r') = service (view r).
Proof.
  revert r. induction es as [|e es IH]; intros r; simpl.
  - now intros [= <-].
  - destruct (deliver e r) as [r1|] eqn:D; [|discriminate].
    intros H. rewrite (IH _ H). now apply (deliver_service e).
Qed.

(** X24.  After a successful [initMap] on a platform with geolocation a
    search does nothing while the position is awaited, and as soon as
    one event has been delivered (the position, an error or the timeout)
    searches are served: the service exists and the location is ready,
    whatever is delivered afterwards. *)
Theorem search_waits_for_location prov rnd st
    (es : list GeoEvent) (e : GeoEvent) r :
  isLocationReady st = false ->
  deliverAll (es ++ [e]) (getUserLocation true (createMap st)) = Some r ->
  initMap true true true st = Locating (getUserLocation true (createMap st))
  /\ getRandomRestaurants toLowerCase fitBounds prov rnd
       (view (getUserLocation true (createMap st)))
     = (view (getUserLocation true (createMap st)), WaitingForLocation)
  /\ service (view r) = true
  /\ isLocationReady (view r) = true
  /\ snd (getRandomRestaurants toLowerCase fitBounds prov rnd (view r))
     <> WaitingForLocation
  /\ snd (getRandomRestaurants toLowerCase fitBounds prov rnd (view r))
     <> ServiceNotInitialized.
Proof.
  intros Rd D. split; [reflexivity|].
  split.
  { unfold getRandomRestaurants. simpl. now rewrite Rd. }
  assert (Sv : service (view r) = true).
  { rewrite (deliverAll_service _ _ D). reflexivity. }
  apply deliverAll_app in D as (r0 & _ & D).
  apply deliver_view in D as [V _].
  assert (R : isLocationReady (view r) = true).
  { rewrite V.
    now destruct (updateCurrentLocationMarker_position
                    (set_location (Some (eventPosition e)) true (view r0)))
      as [_ ->]. }
  split; [assumption|]. split; [assumption|].
  unfold getRandomRestaurants. rewrite Sv, R. simpl.
  destruct (uniqueResults toLowerCase prov (view r));
    [split; discriminate|].
  destruct (updateMapMarkers _ _) as [st2 []];
    [destruct (selectedRestaurants st2)|]; split; discriminate.
Qed.

End LocatingFacts.

(* ================================================================= *)
(** ** The further theorems at work on the scenario *)

Lemma scenario_ids_NoDup : NoDup (map place_id Scenario.places).
Proof. repeat constructor; simpl; intuition discriminate. Qed.

Lemma dedup_keeps_distinct_list_witness :
  NoDup (map place_id Scenario.places)
  /\ dedup Scenario.places = Scenario.places.
Proof.
  split; [exact scenario_ids_NoDup|].
  exact (@dedup_keeps_distinct_list Scenario.places scenario_ids_NoDup).
Defined.

Lemma ranking_keeps_ranked_order_witness :
  StronglySorted ratingGe (filter qualityFloor Scenario.places)
  /\ sortedResults Scenario.places = filter qualityFloor Scenario.places.
Proof.
  assert (H : StronglySorted ratingGe (filter qualityFloor Scenario.places)).
  { vm_compute filter.
    repeat (constructor; [|repeat constructor; vm_compute; discriminate]).
    constructor. }
  split; [exact H|].
  exact (@ranking_keeps_ranked_order Scenario.places H).
Defined.

Lemma selected_restaurants_qualify_witness :
  service Scenario.state = true
  /\ isLocationReady Scenario.state = true
  /\ uniqueResults Scenario.toLowerCase Scenario.provider Scenario.state <> []
  /\ In Scenario.located1 (selectedRestaurants (fst (Scenario.run Scenario.allOver)))
  /\ In (place Scenario.located1)
        (allResults Scenario.provider Scenario.state)
  /\ business_status (place Scenario.located1) = Some OPERATIONAL
  /\ relevant Scenario.toLowerCase (searchKeyword Scenario.state)
       (place Scenario.located1) = true
  /\ (exists q, rating (place Scenario.located1) = Some q /\ 3.5 <= q)
  /\ details Scenario.located1
     = getPlaceDetails Scenario.provider (place_id (place Scenario.located1))
  /\ distance Scenario.located1
     = calculateDistance Scenario.provider (currentPosition Scenario.state)
         (geometry (place Scenario.located1)).
Proof.
  assert (U : uniqueResults Scenario.toLowerCase Scenario.provider
                Scenario.state <> []).
  { rewrite scenario_unique. discriminate. }
  assert (I : In Scenario.located1
                (selectedRestaurants (fst (Scenario.run Scenario.allOver)))).
  { vm_compute. left. reflexivity. }
  split; [reflexivity|]. split; [reflexivity|].
  split; [exact U|]. split; [exact I|].
  exact (@selected_restaurants_qualify Scenario.toLowerCase _
           Scenario.fitBounds Scenario.provider Scenario.allOver
           Scenario.state Scenario.located1 eq_refl eq_refl U I).
Defined.

Lemma selection_has_distinct_places_witness :
  service Scenario.state = true
  /\ isLocationReady Scenario.state = true
  /\ uniqueResults Scenario.toLowerCase Scenario.provider Scenario.state <> []
  /\ NoDup (map (fun r => place_id (place r))
              (selectedRestaurants (fst (Scenario.run Scenario.allUnder)))).
Proof.
  assert (U : uniqueResults Scenario.toLowerCase Scenario.provider
                Scenario.state <> []).
  { rewrite scenario_unique. discriminate. }
  split; [reflexivity|]. split; [reflexivity|]. split; [exact U|].
  exact (@selection_has_distinct_places Scenario.toLowerCase _
           Scenario.fitBounds Scenario.provider Scenario.allUnder
           Scenario.state eq_refl eq_refl U).
Defined.

Lemma details_do_not_change_selection_witness :
  (forall request,
     nearbySearch Scenario.provider request
     = nearbySearch Scenario.noDetailsProvider request)
  /\ map (@place _)
         (selectedRestaurants
            (fst (getRandomRestaurants Scenario.toLowerCase Scenario.fitBounds
                    Scenario.provider Scenario.allUnder Scenario.state)))
     = map (@place _)
           (selectedRestaurants
              (fst (getRandomRestaurants Scenario.toLowerCase
                      Scenario.fitBounds Scenario.noDetailsProvider
                      Scenario.allUnder Scenario.state))).
Proof.
  assert (H : forall request,
             nearbySearch Scenario.provider request
             = nearbySearch Scenario.noDetailsProvider request).
  { intros request. reflexivity. }
  split; [exact H|].
  exact (@details_do_not_change_selection Scenario.toLowerCase _
           Scenario.fitBounds Scenario.provider Scenario.noDetailsProvider
           Scenario.allUnder Scenario.state H).
Defined.

Lemma failed_search_changes_nothing_witness :
  service Scenario.shown = true
  /\ isLocationReady Scenario.shown = true
  /\ (forall request,
        is_OK (fst (nearbySearch Scenario.deniedProvider request)) = false)
  /\ getRandomRestaurants Scenario.toLowerCase Scenario.fitBounds
       Scenario.deniedProvider Scenario.allUnder Scenario.shown
     = (Scenario.shown, NoRestaurantsFound).
Proof.
  assert (S : service Scenario.shown = true) by (vm_compute; reflexivity).
  assert (R : isLocationReady Scenario.shown = true)
    by (vm_compute; reflexivity).
  assert (F : forall request,
             is_OK (fst (nearbySearch Scenario.deniedProvider request))
             = false).
  { intros request. reflexivity. }
  split; [exact S|]. split; [exact R|]. split; [exact F|].
  exact (@failed_search_changes_nothing Scenario.toLowerCase _
           Scenario.fitBounds Scenario.deniedProvider Scenario.allUnder
           Scenario.shown S R F).
Defined.

Lemma markers_mirror_selection_witness :
  snd (Scenario.run Scenario.allOver) = Selected
  /\ map marker_place (markers (fst (Scenario.run Scenario.allOver)))
     = map (@place _) (selectedRestaurants (fst (Scenario.run Scenario.allOver)))
  /\ Forall (fun m => geometry (marker_place m) = Some (marker_position m)
                      /\ infoWindow_open m = true)
            (markers (fst (Scenario.run Scenario.allOver)))
  /\ (selectedRestaurants (fst (Scenario.run Scenario.allOver)) <> [] ->
      showConfetti (fst (Scenario.run Scenario.allOver)) = true).
Proof.
  assert (H : snd (Scenario.run Scenario.allOver) = Selected)
    by (vm_compute; reflexivity).
  split; [exact H|].
  exact (@markers_mirror_selection Scenario.toLowerCase _ Scenario.fitBounds
           Scenario.provider Scenario.allOver Scenario.state H).
Defined.

Lemma missing_location_stops_reconciliation_witness :
  selectedRestaurants Scenario.brokenState
  = [Scenario.located1] ++ Scenario.unlocated2 :: [Scenario.located3]
  /\ Forall (fun q => located (place q)) [Scenario.located1]
  /\ is_operational (place Scenario.unlocated2) = true
  /\ geometry (place Scenario.unlocated2) = None
  /\ updateMapMarkers Scenario.fitBounds Scenario.brokenState
     = (set_markers (fst (addRestaurantMarkers [Scenario.located1] []))
          Scenario.brokenState, Thrown)
  /\ List.length (fst (addRestaurantMarkers [Scenario.located1] []))
     = List.length (filter (fun q => is_operational (place q))
                           [Scenario.located1]).
Proof.
  assert (L : Forall (fun q : SelectedRestaurant Datatypes.unit =>
                        located (place q)) [Scenario.located1]).
  { repeat constructor. discriminate. }
  split; [reflexivity|]. split; [exact L|].
  split; [reflexivity|]. split; [reflexivity|].
  exact (@missing_location_stops_reconciliation _ Scenario.fitBounds
           Scenario.brokenState [Scenario.located1] [Scenario.located3]
           Scenario.unlocated2 eq_refl L eq_refl eq_refl).
Defined.

Lemma validated_search_selects_one_to_ten_witness :
  service (set_inputs 25 1500 Scenario.state) = true
  /\ isLocationReady (set_inputs 25 1500 Scenario.state) = true
  /\ In Scenario.p1
        (uniqueResults Scenario.toLowerCase Scenario.provider
           (set_inputs 25 1500 Scenario.state))
  /\ qualityFloor Scenario.p1 = true
  /\ (1 <= List.length
             (selectedRestaurants
                (fst (getRandomRestaurants Scenario.toLowerCase
                        Scenario.fitBounds Scenario.provider Scenario.allUnder
                        (checkNumberOfRestaurants
                           (set_inputs 25 1500 Scenario.state)))))
        <= 10)%nat.
Proof.
  assert (I : In Scenario.p1
                (uniqueResults Scenario.toLowerCase Scenario.provider
                   (set_inputs 25 1500 Scenario.state))).
  { vm_compute. left. reflexivity. }
  split; [reflexivity|]. split; [reflexivity|]. split; [exact I|].
  split; [reflexivity|].
  exact (@validated_search_selects_one_to_ten Scenario.toLowerCase _
           Scenario.fitBounds Scenario.provider Scenario.allUnder
           (set_inputs 25 1500 Scenario.state) Scenario.p1
           eq_refl eq_refl I eq_refl).
Defined.

Lemma hotpot_keyword_fixed_request_witness :
  JsString.substring_of Lit.hotpot Scenario.spicyHotpot
  /\ getSearchRequests Scenario.spicyHotpot
     = [ {| keyword := Some (Lit.hotpot ++ Lit.space ++ Lit.canting);
            type_ := Lit.restaurant;
            rankby := Some Lit.rating |} ].
Proof.
  assert (H : JsString.substring_of Lit.hotpot Scenario.spicyHotpot).
  { exists [0x9EBB; 0x8FA3]%N, []. reflexivity. }
  split; [exact H|].
  exact (@hotpot_keyword_fixed_request Scenario.spicyHotpot H).
Defined.

Lemma blank_keyword_searched_broadly_filtered_strictly_witness :
  Scenario.blanks <> []
  /\ forallb JsString.isWhiteSpace Scenario.blanks = true
  /\ getSearchRequests Scenario.blanks
     = [ {| keyword := None; type_ := Lit.restaurant; rankby := None |} ]
  /\ (relevant Scenario.toLowerCase Scenario.blanks Scenario.p1 = true <->
      business_status Scenario.p1 = Some OPERATIONAL
      /\ ((exists n, name Scenario.p1 = Some n
                     /\ matches Scenario.toLowerCase Scenario.blanks n)
          \/ (exists ts ty, types Scenario.p1 = Some ts /\ In ty ts
                            /\ matches Scenario.toLowerCase Scenario.blanks ty)
          \/ (exists v, vicinity Scenario.p1 = Some v
                        /\ matches Scenario.toLowerCase Scenario.blanks v))).
Proof.
  assert (N : Scenario.blanks <> []) by (vm_compute; discriminate).
  split; [exact N|]. split; [reflexivity|].
  exact (@blank_keyword_searched_broadly_filtered_strictly
           Scenario.toLowerCase Scenario.blanks Scenario.p1 N eq_refl).
Defined.

Lemma keyword_case_is_ignored_witness :
  Scenario.pizzaUpper <> []
  /\ Scenario.pizzaLower <> []
  /\ Scenario.toLowerCase Scenario.pizzaUpper
     = Scenario.toLowerCase Scenario.pizzaLower
  /\ isRelevantRestaurant Scenario.toLowerCase Scenario.p1 Scenario.pizzaUpper
     = isRelevantRestaurant Scenario.toLowerCase Scenario.p1
         Scenario.pizzaLower.
Proof.
  assert (N1 : Scenario.pizzaUpper <> []) by (vm_compute; discriminate).
  assert (N2 : Scenario.pizzaLower <> []) by (vm_compute; discriminate).
  split; [exact N1|]. split; [exact N2|]. split; [reflexivity|].
  exact (@keyword_case_is_ignored Scenario.toLowerCase Scenario.pizzaUpper
           Scenario.pizzaLower Scenario.p1 N1 N2 eq_refl).
Defined.

Lemma timely_callback_is_final_witness :
  PositionFound Scenario.taipei <> TimerExpires
  /\ exists r,
       deliver (PositionFound Scenario.taipei)
               (getUserLocation true (initialState Datatypes.unit)) = Some r
       /\ settled r = true
       /\ locationTimeout r = Cleared
       /\ readyWrites r = 1%nat
       /\ markerUpdates r = 1%nat
       /\ currentPosition (view r)
          = Some (eventPosition (PositionFound Scenario.taipei))
       /\ deliver TimerExpires r = None.
Proof.
  assert (N : PositionFound Scenario.taipei <> TimerExpires) by discriminate.
  split; [exact N|].
  exact (@timely_callback_is_final _ (initialState Datatypes.unit)
           (PositionFound Scenario.taipei) TimerExpires N).
Defined.

Lemma late_events_resolution :
  deliverAll Scenario.lateEvents
             (getUserLocation true (initialState Datatypes.unit))
  = Some (Scenario.lateResolution (initialState Datatypes.unit)).
Proof. reflexivity. Qed.

Lemma resolution_update_bounds_witness :
  deliverAll Scenario.lateEvents
             (getUserLocation true (initialState Datatypes.unit))
  = Some (Scenario.lateResolution (initialState Datatypes.unit))
  /\ readyWrites (Scenario.lateResolution (initialState Datatypes.unit))
     = markerUpdates (Scenario.lateResolution (initialState Datatypes.unit))
  /\ (readyWrites (Scenario.lateResolution (initialState Datatypes.unit))
      <= 2)%nat
  /\ (settled (Scenario.lateResolution (initialState Datatypes.unit)) = true
      <-> (1 <= readyWrites
                  (Scenario.lateResolution (initialState Datatypes.unit)))%nat).
Proof.
  split; [exact late_events_resolution|].
  exact (@resolution_update_bounds _ true (initialState Datatypes.unit)
           Scenario.lateEvents
           (Scenario.lateResolution (initialState Datatypes.unit))
           late_events_resolution).
Defined.

Lemma last_event_sets_position_witness :
  deliverAll ([TimerExpires] ++ [PositionFound Scenario.taipei])
             (getUserLocation true (initialState Datatypes.unit))
  = Some (Scenario.lateResolution (initialState Datatypes.unit))
  /\ settled (Scenario.lateResolution (initialState Datatypes.unit)) = true
  /\ isLocationReady
       (view (Scenario.lateResolution (initialState Datatypes.unit))) = true
  /\ currentPosition
       (view (Scenario.lateResolution (initialState Datatypes.unit)))
     = Some (eventPosition (PositionFound Scenario.taipei))
  /\ currentLocationMarker
       (view (Scenario.lateResolution (initialState Datatypes.unit)))
     = Some {| loc_position := eventPosition (PositionFound Scenario.taipei);
               loc_on_map := true;
               loc_infoWindow_open := true |}
  /\ mapCenter (view (Scenario.lateResolution (initialState Datatypes.unit)))
     = eventPosition (PositionFound Scenario.taipei).
Proof.
  split; [exact late_events_resolution|].
  exact (@last_event_sets_position _ true (initialState Datatypes.unit)
           [TimerExpires] (PositionFound Scenario.taipei)
           (Scenario.lateResolution (initialState Datatypes.unit))
           late_events_resolution).
Defined.

Lemma failed_init_disables_search_witness :
  (false = false \/ true = false)
  /\ service (setupState Datatypes.unit) = false
  /\ initMap false true true (setupState Datatypes.unit)
     = InitFailed (setupState Datatypes.unit)
  /\ getRandomRestaurants Scenario.toLowerCase Scenario.fitBounds
       Scenario.provider Scenario.allUnder (setupState Datatypes.unit)
     = (setupState Datatypes.unit, ServiceNotInitialized).
Proof.
  split; [left; reflexivity|]. split; [reflexivity|].
  exact (@failed_init_disables_search Scenario.toLowerCase _
           Scenario.fitBounds false true true Scenario.provider
           Scenario.allUnder (setupState Datatypes.unit)
           (or_introl eq_refl) eq_refl).
Defined.

Lemma late_events_after_init :
  deliverAll ([TimerExpires] ++ [PositionFound Scenario.taipei])
             (getUserLocation true (createMap (setupState Datatypes.unit)))
  = Some (Scenario.lateResolution (createMap (setupState Datatypes.unit))).
Proof. reflexivity. Qed.

Lemma search_waits_for_location_witness :
  isLocationReady (setupState Datatypes.unit) = false
  /\ deliverAll ([TimerExpires] ++ [PositionFound Scenario.taipei])
       (getUserLocation true (createMap (setupState Datatypes.unit)))
     = Some (Scenario.lateResolution (createMap (setupState Datatypes.unit)))
  /\ initMap true true true (setupState Datatypes.unit)
     = Locating (getUserLocation true (createMap (setupState Datatypes.unit)))
  /\ getRandomRestaurants Scenario.toLowerCase Scenario.fitBounds
       Scenario.provider Scenario.allUnder
       (view (getUserLocation true (createMap (setupState Datatypes.unit))))
     = (view (getUserLocation true (createMap (setupState Datatypes.unit))),
        WaitingForLocation)
  /\ service (view (Scenario.lateResolution
                      (createMap (setupState Datatypes.unit)))) = true
  /\ isLocationReady
       (view (Scenario.lateResolution
                (createMap (setupState Datatypes.unit)))) = true
  /\ snd (getRandomRestaurants Scenario.toLowerCase Scenario.fitBounds
            Scenario.provider Scenario.allUnder
            (view (Scenario.lateResolution
                     (createMap (setupState Datatypes.unit)))))
     <> WaitingForLocation
  /\ snd (getRandomRestaurants Scenario.toLowerCase Scenario.fitBounds
            Scenario.provider Scenario.allUnder
            (view (Scenario.lateResolution
                     (createMap (setupState Datatypes.unit)))))
     <> ServiceNotInitialized.
Proof.
  split; [reflexivity|]. split; [exact late_events_after_init|].
  exact (@search_waits_for_location Scenario.toLowerCase _ Scenario.fitBounds
           Scenario.provider Scenario.allUnder (setupState Datatypes.unit)
           [TimerExpires] (PositionFound Scenario.taipei)
           (Scenario.lateResolution (createMap (setupState Datatypes.unit)))
           eq_refl late_events_after_init).
Defined.

(* ================================================================= *)
(** ** The shuffle: a rearrangement, never an even one *)

Section RearrangementFacts.

Local Open Scope nat_scope.

Variable A : Type.
Variable A_eq_dec : forall x y : A, {x = y} + {x <> y}.

Lemma insertions_split (x : A) (l t : list A) :
  In t (insertions x l) ->
  exists l1 l2, l = l1 ++ l2 /\ t = l1 ++ x :: l2.
Proof.
  revert t. induction l as [|y r IH]; intros t; simpl.
  - intros [<- | []]. now exists [], [].
  - intros [<- | H].
    + now exists [], (y :: r).
    + apply in_map_iff in H as (u & <- & H).
      destruct (IH u H) as (l1 & l2 & -> & ->).
      now exists (y :: l1), l2.
Qed.

Lemma insertions_In (x : A) (l1 l2 : list A) :
  In (l1 ++ x :: l2) (insertions x (l1 ++ l2)).
Proof.
  induction l1 as [|y l1 IH]; simpl.
  - destruct l2; simpl; auto.
  - right. apply in_map. exact IH.
Qed.

Lemma insertions_length (x : A) (l : list A) :
  List.length (insertions x l) = Datatypes.S (List.length l).
Proof.
  induction l as [|y r IH]; simpl; [reflexivity|].
  now rewrite length_map, IH.
Qed.

Lemma rearrangements_sound (l s : list A) :
  In s (rearrangements l) -> Permutation l s.
Proof.
  revert s. induction l as [|x r IH]; intros s; simpl.
  - intros [<- | []]. constructor.
  - intros H. apply in_flat_map in H as (u & Hu & H).
    apply insertions_split in H as (l1 & l2 & -> & ->).
    apply Permutation_cons_app. now apply IH.
Qed.

Lemma rearrangements_complete (l s : list A) :
  Permutation l s -> In s (rearrangements l).
Proof.
  revert s. induction l as [|x r IH]; intros s P; simpl.
  - apply Permutation_nil in P. subst. now left.
  - assert (I : In x s) by (apply (Permutation_in _ P); now left).
    apply in_split in I as (s1 & s2 & ->).
    apply Permutation_cons_app_inv in P.
    apply in_flat_map. exists (s1 ++ s2). split; [now apply IH|].
    apply insertions_In.
Qed.

Lemma rearrangements_length (l : list A) :
  List.length (rearrangements l) = fact (List.length l).
Proof.
  induction l as [|x r IH]; simpl; [reflexivity|].
  rewrite (flat_map_constant_length (c := Datatypes.S (List.length r))).
  - rewrite IH. lia.
  - intros u Hu. rewrite insertions_length.
    now rewrite <- (Permutation_length (rearrangements_sound _ _ Hu)).
Qed.

Lemma NoDup_map_cons (y : A) (L : list (list A)) :
  NoDup L -> NoDup (map (cons y) L).
Proof.
  induction 1 as [|t L N ND IH]; simpl; constructor; [|assumption].
  intros H. apply in_map_iff in H as (u & [= ->] & H). contradiction.
Qed.

Lemma NoDup_insertions (x : A) (l : list A) :
  ~ In x l -> NoDup (insertions x l).
Proof.
  induction l as [|y r IH]; intros N; simpl.
  - repeat constructor. simpl. tauto.
  - constructor.
    + intros H. apply in_map_iff in H as (u & [= -> _] & _).
      apply N. now left.
    + apply NoDup_map_cons, IH. intros H. apply N. now right.
Qed.

Lemma insertions_remove (x : A) (l t : list A) :
  ~ In x l -> In t (insertions x l) -> remove A_eq_dec x t = l.
Proof.
  intros N H. apply insertions_split in H as (l1 & l2 & -> & ->).
  rewrite remove_app, remove_cons, <- remove_app.
  now apply notin_remove.
Qed.

Lemma NoDup_flat_map {B C : Type} (f : B -> list C) (l : list B) :
  NoDup l ->
  (forall b, In b l -> NoDup (f b)) ->
  (forall b b' c, In b l -> In b' l -> In c (f b) -> In c (f b') -> b = b') ->
  NoDup (flat_map f l).
Proof.
  induction 1 as [|b l N ND IH]; intros Hf Hd; simpl; [constructor|].
  apply NoDup_app.
  - apply Hf. now left.
  - apply IH.
    + intros b' Hb'. apply Hf. now right.
    + intros b1 b2 c H1 H2. apply Hd; now right.
  - intros c Hc H. apply in_flat_map in H as (b' & Hb' & H).
    assert (E : b = b') by (apply (Hd b b' c); auto; [now left | now right]).
    subst. contradiction.
Qed.

Lemma NoDup_rearrangements (l : list A) :
  NoDup l -> NoDup (rearrangements l).
Proof.
  induction 1 as [|x r N ND IH]; simpl.
  - repeat constructor. simpl. tauto.
  - assert (X : forall u, In u (rearrangements r) -> ~ In x u).
    { intros u Hu H. apply N.
      apply (Permutation_in _ (Permutation_sym (rearrangements_sound _ _ Hu))).
      exact H. }
    apply NoDup_flat_map; [assumption | |].
    + intros u Hu. apply NoDup_insertions. now apply X.
    + intros u u' t Hu Hu' Ht Ht'.
      rewrite <- (@insertions_remove x u t (X u Hu) Ht).
      exact (@insertions_remove x u' t (X u' Hu') Ht').
Qed.

Lemma three_divides_fact (n : nat) : 3 <= n -> Nat.divide 3 (fact n).
Proof.
  induction 1 as [|n L IH].
  - exists 2. reflexivity.
  - change (fact (Datatypes.S n)) with (Datatypes.S n * fact n).
    now apply Nat.divide_mul_r.
Qed.

End RearrangementFacts.

Section ShuffleFacts.

Variable toLowerCase : jsstring -> jsstring.
Variable PlaceDetails : Type.

Implicit Types (prov : Provider PlaceDetails) (st : ViewState PlaceDetails).
Implicit Types (rnd : RandomSource) (pool : list RawPlace).

(** Three places or more have a number of rearrangements that three
    divides, and [2 ^ d] sequences of flips cannot be dealt out evenly
    among them. *)
Lemma rearranging_engine_not_even pool (d : nat)
    (engine : list bool -> list RawPlace) :
  NoDup pool ->
  (3 <= List.length pool)%nat ->
  rearranges pool engine ->
  ~ evenly pool d engine.
Proof.
  intros ND L R E.
  apply (@coin_engine_not_uniform _ arrangement_eq_dec engine d
           (rearrangements pool)).
  - now apply (NoDup_rearrangements RawPlace_eq_dec).
  - rewrite rearrangements_length. now apply three_divides_fact.
  - intros bits. apply rearrangements_complete, R.
  - intros o1 o2 H1 H2.
    apply E; now apply rearrangements_sound.
Qed.

Lemma topHalf_NoDup (unique : list RawPlace) :
  NoDup (map place_id unique) -> NoDup (topHalf unique).
Proof.
  intros ND. apply (NoDup_map_inv place_id).
  unfold topHalf, slice0. rewrite <- firstn_map. apply NoDup_firstn.
  apply (Permutation_NoDup
           (Permutation_sym (Permutation_map place_id
                               (sortedResults_perm unique)))).
  now apply NoDup_map_filter.
Qed.

Lemma scenario_three_NoDup :
  NoDup [Scenario.p1; Scenario.p2; Scenario.p3].
Proof.
  apply (NoDup_map_inv place_id).
  repeat constructor; simpl; intuition discriminate.
Qed.

(** C2, as stated, fails.  Take the pool of the three best places of
    the scenario.  The shuffle sorts it with a comparator whose answers
    are fair coin flips, so whatever algorithm the engine sorts with and
    however many answers [d] it asks for, the six rearrangements of the
    pool cannot all be equally likely: six does not divide [2 ^ d]. *)
Lemma no_engine_shuffles_three_places_evenly :
  ~ exists (d : nat) (engine : list bool -> list RawPlace),
      rearranges [Scenario.p1; Scenario.p2; Scenario.p3] engine
      /\ evenly [Scenario.p1; Scenario.p2; Scenario.p3] d engine.
Proof.
  intros (d & engine & R & E).
  apply (@rearranging_engine_not_even
           [Scenario.p1; Scenario.p2; Scenario.p3] d engine);
    [exact scenario_three_NoDup | simpl; lia | exact R | exact E].
Qed.

(** C2, amended.  For the pool of every run and a count that is not
    negative: the shuffle step rearranges the pool, its result being a
    permutation of it, and the selection is made of the first [count]
    entries of that result.  Equal chances are not promised, and for a
    pool of three places or more they are out of reach: no engine,
    sorting under the coin-flip comparator, makes every rearrangement of
    the pool as likely as every other. *)
Theorem shuffle_rearranges_never_evenly prov st rnd :
  (0 <= numberOfRestaurants st)%Z ->
  let unique := uniqueResults toLowerCase prov st in
  let pool := topHalf unique in
  Permutation (shuffled rnd pool) pool
  /\ selected rnd (numberOfRestaurants st) unique
     = firstn (Z.to_nat (numberOfRestaurants st)) (shuffled rnd pool)
  /\ ((3 <= List.length pool)%nat ->
      forall (d : nat) (engine : list bool -> list RawPlace),
        rearranges pool engine -> ~ evenly pool d engine).
Proof.
  intros H unique pool. split; [apply shuffled_perm|]. split.
  - unfold selected. now apply slice0_nonneg.
  - intros L d engine. apply rearranging_engine_not_even; [|exact L].
    apply topHalf_NoDup. unfold unique, uniqueResults.
    apply NoDup_map_filter, NoDup_dedup_ids.
Qed.

End ShuffleFacts.

(** The pool of four of the scenario, count 3. *)
Lemma shuffle_rearranges_never_evenly_witness :
  (0 <= numberOfRestaurants Scenario.state)%Z
  /\ (3 <= List.length
             (topHalf (uniqueResults Scenario.toLowerCase Scenario.provider
                         Scenario.state)))%nat
  /\ Permutation
       (shuffled Scenario.allUnder
          (topHalf (uniqueResults Scenario.toLowerCase Scenario.provider
                      Scenario.state)))
       (topHalf (uniqueResults Scenario.toLowerCase Scenario.provider
                   Scenario.state))
  /\ selected Scenario.allUnder (numberOfRestaurants Scenario.state)
       (uniqueResults Scenario.toLowerCase Scenario.provider Scenario.state)
     = firstn (Z.to_nat (numberOfRestaurants Scenario.state))
         (shuffled Scenario.allUnder
            (topHalf (uniqueResults Scenario.toLowerCase Scenario.provider
                        Scenario.state)))
  /\ (forall (d : nat) (engine : list bool -> list RawPlace),
        rearranges
          (topHalf (uniqueResults Scenario.toLowerCase Scenario.provider
                      Scenario.state)) engine ->
        ~ evenly
            (topHalf (uniqueResults Scenario.toLowerCase Scenario.provider
                        Scenario.state)) d engine).
Proof.
  assert (H : (0 <= numberOfRestaurants Scenario.state)%Z)
    by (vm_compute; discriminate).
  assert (L : (3 <= List.length
                      (topHalf (uniqueResults Scenario.toLowerCase
                                  Scenario.provider Scenario.state)))%nat).
  { rewrite scenario_unique, scenario_pool. simpl. lia. }
  destruct (@shuffle_rearranges_never_evenly Scenario.toLowerCase _
              Scenario.provider Scenario.state Scenario.allUnder H)
    as (P & E & N).
  split; [exact H|]. split; [exact L|]. split; [exact P|].
  split; [exact E|]. exact (N L).
Defined.
